(** * TensorRT-LLM: the BLIP-2 example's dtype mapping and the reference
      computation of the groupwise weight-only quantized matmul test

    Two source files are covered:
    - [examples/blip2/summarize.py]: [trt_dtype_to_torch];
    - [tests/quantization/test_weight_only_groupwise_quant_matmul.py]:
      the reference side of [_woq_groupwise_matmul].

    Tensors hold exact rationals ([Qc], rationals in lowest terms, with
    Leibniz equality): the development is about the real-valued contract of
    the reference, not about float16 rounding.  Python exceptions are the
    left summand of [result]. *)

From Stdlib Require Import List Bool Arith ZArith QArith Qcanon Lia.
From Stdlib Require Ascii String DecimalString DecimalZ DecimalPos.
Import ListNotations.

(** ** Exceptions and the error monad *)

Inductive exn : Type :=
| TypeError
| IndexError
| RuntimeError
| ZeroDivisionError.

Definition result (A : Type) : Type := (exn + A)%type.

Definition ret {A : Type} (a : A) : result A := inr a.
Definition raise {A : Type} (e : exn) : result A := inl e.

Definition bind {A B : Type} (c : result A) (f : A -> result B) : result B :=
  match c with
  | inl e => inl e
  | inr a => f a
  end.

Notation "x <- c ;; k" := (bind c (fun x => k))
  (at level 61, c at next level, right associativity).

Fixpoint mapM {A B : Type} (f : A -> result B) (l : list A) : result (list B) :=
  match l with
  | [] => ret []
  | x :: l' => y <- f x ;; ys <- mapM f l' ;; ret (y :: ys)
  end.

(** ** examples/blip2/summarize.py *)

Module Summarize.

(** The members of [tensorrt.DataType]; [trt.float16], [trt.float32] and
    [trt.int32] are the module-level aliases of [HALF], [FLOAT], [INT32]. *)
Inductive trt_DataType : Type :=
| FLOAT | HALF | INT8 | INT32 | BOOL | UINT8 | FP8 | BF16 | INT64 | INT4.

Definition trt_float16 : trt_DataType := HALF.
Definition trt_float32 : trt_DataType := FLOAT.
Definition trt_int32 : trt_DataType := INT32.

Inductive torch_dtype : Type :=
| torch_float16 | torch_float32 | torch_int32
| torch_int8 | torch_bool | torch_uint8 | torch_bfloat16 | torch_int64.

(** The argument is an untyped Python value: a TensorRT dtype or anything
    else a caller may pass. *)
Inductive pyvalue : Type :=
| PyTrt (d : trt_DataType)
| PyTorch (t : torch_dtype)
| PyNone
| PyInt (z : Z)
| PyStr (s : list nat).

Definition trt_DataType_eqb (a b : trt_DataType) : bool :=
  match a, b with
  | FLOAT, FLOAT | HALF, HALF | INT8, INT8 | INT32, INT32 | BOOL, BOOL
  | UINT8, UINT8 | FP8, FP8 | BF16, BF16 | INT64, INT64 | INT4, INT4 => true
  | _, _ => false
  end.

(** Python's [dtype == trt.<name>]: only a TensorRT dtype compares equal to
    a TensorRT dtype. *)
Definition py_eq_trt (v : pyvalue) (d : trt_DataType) : bool :=
  match v with
  | PyTrt d' => trt_DataType_eqb d' d
  | _ => false
  end.

Definition trt_dtype_to_torch (dtype : pyvalue) : result torch_dtype :=
  if py_eq_trt dtype trt_float16 then ret torch_float16
  else if py_eq_trt dtype trt_float32 then ret torch_float32
  else if py_eq_trt dtype trt_int32 then ret torch_int32
  else raise TypeError.

End Summarize.

(** ** A model of the torch operations the test uses

    A 1-D tensor is a [vec], a 2-D tensor the list of its rows.  The empty
    tensor [torch.Tensor()] has no element. *)

Definition vec : Type := list Qc.
Definition tensor : Type := list vec.

Open Scope Qc_scope.

Definition Z2Qc (z : Z) : Qc := Q2Qc (inject_Z z).
Definition b2Qc (b : bool) : Qc := if b then 1 else 0.

Definition torch_Tensor : tensor := [].

Definition numel (t : tensor) : nat := length (concat t).

(** [t.shape == (r, c)] for a 2-D tensor. *)
Definition has_shape (r c : nat) (t : tensor) : bool :=
  (length t =? r)%nat && forallb (fun row => (length row =? c)%nat) t.

Definition same_shape (a b : tensor) : bool :=
  (length a =? length b)%nat &&
  forallb (fun p => (length (fst p) =? length (snd p))%nat) (combine a b).

Definition map2 (f : Qc -> Qc -> Qc) (a b : vec) : vec :=
  map (fun p => f (fst p) (snd p)) (combine a b).

(** Broadcasting of one dimension: equal sizes, or one of them is 1. *)
Definition bvec (f : Qc -> Qc -> Qc) (a b : vec) : result vec :=
  if (length a =? length b)%nat then ret (map2 f a b)
  else if (length a =? 1)%nat then ret (map (f (hd 0 a)) b)
  else if (length b =? 1)%nat then ret (map (fun x => f x (hd 0 b)) a)
  else raise RuntimeError.

Fixpoint zip_rows (f : Qc -> Qc -> Qc) (a b : tensor) : result tensor :=
  match a, b with
  | [], [] => ret []
  | x :: a', y :: b' =>
      r <- bvec f x y ;; rs <- zip_rows f a' b' ;; ret (r :: rs)
  | _, _ => raise RuntimeError
  end.

(** An elementwise binary operation on 2-D tensors, with broadcasting. *)
Definition btensor (f : Qc -> Qc -> Qc) (a b : tensor) : result tensor :=
  if (length a =? length b)%nat then zip_rows f a b
  else if (length a =? 1)%nat then mapM (fun y => bvec f (hd [] a) y) b
  else if (length b =? 1)%nat then mapM (fun x => bvec f x (hd [] b)) a
  else raise RuntimeError.

(** A 1-D operand broadcasts against a 2-D one as a single row. *)
Definition as_row (v : vec) : tensor := [v].

(** In-place operators ([*=], [+=]): the result must keep the shape of the
    left operand. *)
Definition inplace (f : Qc -> Qc -> Qc) (a b : tensor) : result tensor :=
  r <- btensor f a b ;;
  if same_shape r a then ret r else raise RuntimeError.

(** [t * c] for a Python number [c]. *)
Definition tscale (c : Qc) (t : tensor) : tensor := map (map (fun x => x * c)) t.
Definition vscale (c : Qc) (v : vec) : vec := map (Qcmult c) v.

Definition zeros_like (t : tensor) : tensor := map (map (fun _ => 0)) t.
Definition ones_like (t : tensor) : tensor := map (map (fun _ => 1)) t.

(** [t.repeat_interleave(g, dim=0)]: every row [g] times in a row. *)
Definition repeat_interleave (g : nat) (t : tensor) : tensor :=
  flat_map (fun row => repeat row g) t.

(** [t.repeat(m, 1)]: the rows of [t] tiled [m] times. *)
Definition trepeat (m : nat) (t : tensor) : tensor := concat (repeat t m).

(** [t[i, :]]: one row, [IndexError] past the last row. *)
Definition index_row (t : tensor) (i : nat) : result vec :=
  match nth_error t i with
  | Some row => ret row
  | None => raise IndexError
  end.

Definition dot (a b : vec) : Qc := fold_right Qcplus 0 (map2 Qcmult a b).
Definition column (j : nat) (w : tensor) : vec := map (fun row => nth j row 0) w.
Definition ncols (w : tensor) : nat := length (hd [] w).

(** [torch.matmul(a, w)] on 2-D operands: the inner sizes must agree. *)
Definition matmul (a w : tensor) : result tensor :=
  if forallb (fun row => (length row =? length w)%nat) a
  then ret (map (fun row => map (fun j => dot row (column j w)) (seq 0 (ncols w))) a)
  else raise RuntimeError.

(** Entry [t[i, j]], read with default 0. *)
Definition entry (t : tensor) (i j : nat) : Qc := nth j (nth i t []) 0.

(** [sum_{r < k} f r]. *)
Definition sumr (k : nat) (f : nat -> Qc) : Qc :=
  fold_right Qcplus 0 (map f (seq 0 k)).

(** ** tests/quantization/test_weight_only_groupwise_quant_matmul.py *)

Inductive dtype_name : Type := float16 | bfloat16 | float32.

(** The int32 tensor of packed 4-bit lanes, by rows. *)
Definition packed : Type := list (list Z).

Definition packed_has_shape (r c : nat) (p : packed) : bool :=
  (length p =? r)%nat && forallb (fun row => (length row =? c)%nat) p.

(** The flags of [quant_algo] (lines 151-154). *)
Definition BIAS : Z := 1.
Definition ZERO : Z := 2.
Definition PRE_QUANT_SCALE : Z := 4.
Definition W4A8_AWQ : Z := 8.

(** Python's [bool * int]. *)
Definition b2z (b : bool) : Z := if b then 1%Z else 0%Z.

(** Line 156. *)
Definition quant_algo_of (use_w4a8_awq has_pre_quant has_zero has_bias : bool) : Z :=
  (b2z use_w4a8_awq * W4A8_AWQ + b2z has_pre_quant * PRE_QUANT_SCALE
   + b2z has_zero * ZERO + b2z has_bias * BIAS)%Z.

(** [quant_algo & FLAG != 0]. *)
Definition flag_set (quant_algo flag : Z) : bool :=
  negb (Z.land quant_algo flag =? 0)%Z.

(** Lines 166-173: the reference dequantized weight.  [input_rows] is used
    as a row index into the repeated scale (and zero), so [scale_ref] is one
    row, broadcast over all rows of [qweight_int8]. *)
Definition ref_th_weight_of (qweight_int8 scale zero : tensor)
    (group_size : nat) (has_zero uint4_input : bool) : result tensor :=
  let input_rows := length qweight_int8 in
  scale_ref <- index_row (repeat_interleave group_size scale) input_rows ;;
  t1 <- btensor Qcmult qweight_int8 (as_row scale_ref) ;;
  w <- btensor Qcminus t1
         (as_row (vscale (b2Qc uint4_input * Z2Qc 8) scale_ref)) ;;
  if has_zero then
    zero_ref <- index_row (repeat_interleave group_size zero) input_rows ;;
    inplace Qcplus w (as_row zero_ref)
  else ret w.

(** Lines 182-187: alpha first, pre-quant scale second. *)
Definition ref_activation_of (m : nat) (use_w4a8_awq has_pre_quant : bool)
    (activation : tensor) (fp8_alpha : vec) (pre_quant_scale : tensor)
    : result tensor :=
  a1 <- (if use_w4a8_awq then inplace Qcmult activation (as_row fp8_alpha)
         else ret activation) ;;
  if has_pre_quant then btensor Qcmult a1 (trepeat m pre_quant_scale)
  else ret a1.

(** Modelled from the spec: [_utils.woq_groupwise_gt_matmul] is imported
    from the test utilities, which are not among the sources.  Section 4.4 of
    the specification: [Output[i,j] = sum_r Activation'[i,r] *
    DequantWeight[r,j] + Bias[j]], where [Bias[j]] is 0 when the bias is
    absent (an empty tensor). *)
Definition woq_groupwise_gt_matmul (mat1 ref_torch_weights bias : tensor)
    : result tensor :=
  ref <- matmul mat1 ref_torch_weights ;;
  if (numel bias =? 0)%nat then ret ref else inplace Qcplus ref bias.

(** The operands and results of the reference side when line 189 has run:
    the activation and the bias as lines 175-187 leave them, the pre-quant
    scale, scale, zero and alpha as generated (what the plugin receives),
    the unpacked weight, the reference weight and the reference output. *)
Record locals : Type := mk_locals {
  l_activation : tensor;
  l_pre_quant_scale : tensor;
  l_scale : tensor;
  l_zero : tensor;
  l_bias : tensor;
  l_fp8_alpha : vec;
  l_quant_algo : Z;
  l_qweight_int8 : tensor;
  l_ref_th_weight : tensor;
  l_ref : tensor
}.

Section Reference.

(** The random sources and the helpers of [_utils] that only produce data:
    the generator state is threaded through the calls in program order. *)
Variable rng : Type.
Variable manual_seed : nat -> rng.
Variable woq_gen_weights : nat -> nat -> dtype_name -> rng -> tensor * rng.
Variable randint : nat -> nat -> rng -> packed * rng.
Variable randn : rng -> Qc * rng.
Variable woq_groupwise_extract_int4 : packed -> bool -> tensor.

(** Lines 136-189, the reference side.  The plugin run of lines 177-180 is
    an opaque kernel that reads its operands and leaves them as they are; the
    value returned here is what line 191 compares with the plugin's output. *)
Definition _woq_groupwise_matmul (m n k : nat) (dtype : dtype_name)
    (has_pre_quant has_zero has_bias : bool) (group_size : nat)
    (uint4_input use_w4a8_awq : bool) : result locals :=
  let s := manual_seed 0 in
  let '(activation, s) := woq_gen_weights m k dtype s in
  let '(pre_quant_scale, s) := woq_gen_weights 1 k dtype s in
  let '(qweight_unprocessed, s) := randint (k / 8) n s in
  if (group_size =? 0)%nat then raise ZeroDivisionError else
  let '(g, s) := woq_gen_weights ((k + group_size) / group_size) n dtype s in
  let scale := tscale (Z2Qc 2) g in
  let '(zero, s) :=
    if has_zero
    then let '(z, s') :=
           woq_gen_weights ((k + group_size) / group_size) n dtype s in
         (tscale (Z2Qc 2) z, s')
    else (torch_Tensor, s) in
  let '(bias, s) :=
    if has_bias then woq_gen_weights 1 n dtype s else (torch_Tensor, s) in
  let '(fp8_alpha, s) :=
    if use_w4a8_awq
    then let '(x, s') := randn s in ([x + Q2Qc (1 # 2)], s')
    else ([], s) in
  let quant_algo := quant_algo_of use_w4a8_awq has_pre_quant has_zero has_bias in
  let qweight_int8 := woq_groupwise_extract_int4 qweight_unprocessed uint4_input in
  ref_th_weight <-
    ref_th_weight_of qweight_int8 scale zero group_size has_zero uint4_input ;;
  let activation := zeros_like activation in
  let bias := ones_like bias in
  activation <-
    ref_activation_of m use_w4a8_awq has_pre_quant activation fp8_alpha
      pre_quant_scale ;;
  ref <- woq_groupwise_gt_matmul activation ref_th_weight bias ;;
  ret (mk_locals activation pre_quant_scale scale zero bias fp8_alpha
         quant_algo qweight_int8 ref_th_weight ref).

End Reference.

(** What lines 168-173 do to one row of [qweight_int8], given the selected
    scale row and zero row. *)
Definition dequant_row (uint4_input has_zero : bool) (scale_ref zero_ref row : vec) : vec :=
  let w := map2 Qcminus (map2 Qcmult row scale_ref)
             (vscale (b2Qc uint4_input * Z2Qc 8) scale_ref) in
  if has_zero then map2 Qcplus w zero_ref else w.


(** The dequantized weight as the specification words it: row [r] uses the
    scale (and zero) of its own group [r // group_size]. *)
Definition dequant_spec (unpacked scale zero : tensor) (group_size : nat)
    (has_zero uint4_input : bool) (r c : nat) : Qc :=
  entry unpacked r c * entry scale (r / group_size) c
  - b2Qc uint4_input * Z2Qc 8 * entry scale (r / group_size) c
  + (if has_zero then entry zero (r / group_size) c else 0).

(** [ceil(k / group_size)], as the specification words the row count of the
    scale tensor. *)
Definition ceil_div (k g : nat) : nat := ((k + g - 1) / g)%nat.

(** The flag and tensor pairing of the specification: every flag of
    [quant_algo] is set exactly when its optional tensor has an element. *)
Definition flags_match_tensors (L : locals) : Prop :=
  (flag_set (l_quant_algo L) BIAS = true <-> numel (l_bias L) <> 0%nat) /\
  (flag_set (l_quant_algo L) ZERO = true <-> numel (l_zero L) <> 0%nat) /\
  (flag_set (l_quant_algo L) PRE_QUANT_SCALE = true <->
     numel (l_pre_quant_scale L) <> 0%nat) /\
  (flag_set (l_quant_algo L) W4A8_AWQ = true <-> length (l_fp8_alpha L) <> 0%nat).


(** ** Sample data sources

    A deterministic stand-in for the seeded generator, used to run the
    reference on concrete test cases: the state is a call counter, entry
    [(i, j)] of the tensor drawn at state [s] is [(s + 3 i + j - 2) / 4], a
    packed word is a multiple of [0x1234567], and lane [i] of a packed word
    is its [i]-th nibble (less 8 in the signed convention). *)

Definition sample_tensor (s r c : nat) : tensor :=
  map (fun i => map (fun j => Q2Qc ((Z.of_nat (s + 3 * i + j) - 2) # 4)) (seq 0 c))
      (seq 0 r).

Definition sample_seed (n : nat) : nat := n.

Definition sample_gen (r c : nat) (d : dtype_name) (s : nat) : tensor * nat :=
  (sample_tensor s r c, S s).

Definition sample_randint (r c : nat) (s : nat) : packed * nat :=
  (map (fun i => map (fun j => (Z.of_nat (s + i + 7 * j) * 19088743)%Z) (seq 0 c))
       (seq 0 r), S s).

Definition sample_randn (s : nat) : Qc * nat := (Q2Qc (Z.of_nat s # 8), S s).

Definition nibble (w : Z) (i : nat) : Z :=
  (Z.shiftr w (4 * Z.of_nat i) mod 16)%Z.

Definition sample_extract (p : packed) (uint4_input : bool) : tensor :=
  flat_map (fun row =>
    map (fun i => map (fun w =>
                   Z2Qc (nibble w i - (if uint4_input then 0 else 8))) row)
        (seq 0 8)) p.

Definition sample_run :=
  _woq_groupwise_matmul nat sample_seed sample_gen sample_randint sample_randn
    sample_extract.

(** Explicit small operands: eight unpacked rows of one column, and per-group
    scales. *)
Definition ones_8x1 : tensor := repeat [Z2Qc 1] 8.
Definition scale_123 : tensor := [[Z2Qc 1]; [Z2Qc 2]; [Z2Qc 3]].
Definition scale_15 : tensor := [[Z2Qc 1]; [Z2Qc 5]].
Definition scale_17 : tensor := [[Z2Qc 1]; [Z2Qc 7]].

(** Small operands drawn from the sample generator: an activation of shape
    [2 x 3], a pre-quant scale [1 x 3], a weight [3 x 2], a bias [1 x 2]. *)
Definition sample_act : tensor := sample_tensor 0 2 3.
Definition sample_pqs : tensor := sample_tensor 1 1 3.
Definition sample_weight : tensor := sample_tensor 2 3 2.
Definition sample_bias : tensor := sample_tensor 3 1 2.

(** One activation row, a per-channel scale and a weight on which scaling
    before and after the product differ. *)
Definition act_10 : tensor := [[Z2Qc 1; Z2Qc 0]].
Definition pqs_21 : tensor := [[Z2Qc 2; Z2Qc 1]].
Definition weight_0100 : tensor := [[Z2Qc 0; Z2Qc 1]; [Z2Qc 0; Z2Qc 0]].

(** ** The parameterized test methods (lines 193-322) *)

(** One row of a [parameterized.expand] table. *)
Record case : Type := mk_case {
  c_m : nat;
  c_n : nat;
  c_k : nat;
  c_dtype : dtype_name;
  c_has_pre_quant : bool;
  c_has_zero : bool;
  c_has_bias : bool;
  c_group_size : nat
}.

(** Lines 193-201. *)
Definition cases_matmul_int4_input : list case :=
  [ mk_case 1 1024 64 float16 false true true 64;
    mk_case 16 1024 256 float16 false true false 64;
    mk_case 32 2048 384 float16 false false true 64;
    mk_case 64 2048 1024 float16 false false false 64;
    mk_case 1 1024 128 float16 false true true 128;
    mk_case 16 1024 256 float16 false true false 128;
    mk_case 32 2048 384 float16 false false true 128;
    mk_case 64 2048 1024 float16 false false false 128 ].

(** Lines 222-230. *)
Definition cases_prequant_matmul_int4_input : list case :=
  [ mk_case 1 1024 64 float16 true true true 64;
    mk_case 16 1024 256 float16 true true false 64;
    mk_case 32 2048 384 float16 true false true 64;
    mk_case 64 2048 1024 float16 true false false 64;
    mk_case 1 1024 128 float16 true true true 128;
    mk_case 16 1024 256 float16 true true false 128;
    mk_case 32 2048 384 float16 true false true 128;
    mk_case 64 2048 1024 float16 true false false 128 ].

(** Lines 251-257: the last column is [use_w4a8_awq]. *)
Definition cases_prequant_matmul_fp8_int4_input_hopper : list (case * bool) :=
  [ (mk_case 1 1024 128 float16 true true true 64, false);
    (mk_case 1 1024 128 float16 true true true 128, false);
    (mk_case 16 1024 256 float16 true true false 128, true);
    (mk_case 32 2048 384 float16 true false true 128, false);
    (mk_case 64 2048 1024 float16 true false false 128, true) ].

(** Lines 278-283. *)
Definition cases_hopper_fp16_int4_flexible_groups : list case :=
  [ mk_case 32 1024 128 float16 true true true 64;
    mk_case 32 1024 128 float16 true true true 128;
    mk_case 32 1024 256 float16 true true false 192;
    mk_case 32 2048 384 float16 true false true 256;
    mk_case 64 2048 1024 float16 true false false 320 ].

(** Lines 302-307. *)
Definition cases_hopper_fp8_int4_flexible_groups : list case :=
  [ mk_case 32 1024 128 float16 true true true 128;
    mk_case 32 1024 128 float16 true true true 256;
    mk_case 32 1024 256 float16 true true false 384;
    mk_case 32 2048 1024 float16 true false true 512;
    mk_case 64 2048 2048 float16 true false false 640 ].

(** A test method is skipped by its [unittest.skipIf] decorator or runs
    [_woq_groupwise_matmul]. *)
Inductive outcome : Type :=
| Skipped
| Ran (r : result locals).

(** What the reference side needs of a case: a positive group size and a
    positive contraction size that is a multiple of 8. *)
Definition admissible (c : case) : bool :=
  (0 <? c_group_size c)%nat && (0 <? c_k c)%nat && (c_k c mod 8 =? 0)%nat.

Section Tests.

Variable rng : Type.
Variable manual_seed : nat -> rng.
Variable woq_gen_weights : nat -> nat -> dtype_name -> rng -> tensor * rng.
Variable randint : nat -> nat -> rng -> packed * rng.
Variable randn : rng -> Qc * rng.
Variable woq_groupwise_extract_int4 : packed -> bool -> tensor.

(** [getSMVersion()], read when the class body is evaluated. *)
Variable getSMVersion : nat.

Definition run_case (c : case) (uint4_input use_w4a8_awq : bool) : result locals :=
  _woq_groupwise_matmul rng manual_seed woq_gen_weights randint randn
    woq_groupwise_extract_int4 (c_m c) (c_n c) (c_k c) (c_dtype c)
    (c_has_pre_quant c) (c_has_zero c) (c_has_bias c) (c_group_size c)
    uint4_input use_w4a8_awq.

(** Lines 202-220. *)
Definition test_matmul_int4_input (c : case) : outcome :=
  if (getSMVersion <? 80)%nat then Skipped
  else Ran (run_case c (getSMVersion <? 90)%nat false).

(** Lines 231-249. *)
Definition test_prequant_matmul_int4_input (c : case) : outcome :=
  if (getSMVersion <? 80)%nat then Skipped
  else Ran (run_case c (getSMVersion <? 90)%nat false).

(** Lines 258-273. *)
Definition test_prequant_matmul_fp8_int4_input_hopper (cu : case * bool) : outcome :=
  if negb (getSMVersion =? 90)%nat then Skipped
  else Ran (run_case (fst cu) false (snd cu)).

(** Lines 284-297. *)
Definition test_hopper_fp16_int4_flexible_groups (c : case) : outcome :=
  if negb (getSMVersion =? 90)%nat then Skipped
  else Ran (run_case c false false).

(** Lines 308-322. *)
Definition test_hopper_fp8_int4_flexible_groups (c : case) : outcome :=
  if negb (getSMVersion =? 90)%nat then Skipped
  else Ran (run_case c false true).

End Tests.

(** A case completed: skipped, or run to a reference output that is the
    all-ones matrix with a bias and the all-zero matrix without. *)
Definition completed (c : case) (o : outcome) : Prop :=
  o = Skipped \/
  exists L, o = Ran (ret L) /\
    l_ref L = repeat (repeat (b2Qc (c_has_bias c)) (c_n c)) (c_m c).

(** Scales that tell the group of the row count from group 0: row
    [k // group_size] is all ones, every other row all zeros. *)
Definition marker_scale (rows n mark : nat) : tensor :=
  map (fun i => repeat (if (i =? mark)%nat then 1 else 0) n) (seq 0 rows).

(** ** The activation path with its products left open

    Lines 182-187 once more, with the two elementwise products as
    parameters: [mul_alpha] is the in-place product of the float16 activation
    with the float32 scalar of line 183, [mul_scale] the float16 product of
    [torch.mul] at line 187.  A rounded product need be neither commutative
    nor associative, so here the order of the two steps shows in the result;
    [ref_activation_of] is the instance at the exact product. *)
Definition ref_activation_with (mul_alpha mul_scale : Qc -> Qc -> Qc) (m : nat)
    (use_w4a8_awq has_pre_quant : bool)
    (activation : tensor) (fp8_alpha : vec) (pre_quant_scale : tensor)
    : result tensor :=
  a1 <- (if use_w4a8_awq then inplace mul_alpha activation (as_row fp8_alpha)
         else ret activation) ;;
  if has_pre_quant then btensor mul_scale a1 (trepeat m pre_quant_scale)
  else ret a1.

(** A product rounded down to an integer: a small stand-in for a rounded
    floating-point product, on which the order of two scalings is visible. *)
Definition floor_mul (x y : Qc) : Qc :=
  let p := this (x * y) in Z2Qc (Qnum p / Zpos (Qden p)).

(** An activation [[3/2]], alpha [1/2] and a pre-quant scale [[4]]. *)
Definition act_3_2 : tensor := [[Q2Qc (3 # 2)]].
Definition alpha_1_2 : vec := [Q2Qc (1 # 2)].
Definition pqs_4 : tensor := [[Z2Qc 4]].

(** ** examples/blip2/summarize.py: engine names and prompt-tuning inputs

    Tensors of this part keep their shape beside their elements in storage
    (row-major) order, as [view] and [reshape] see them; integers are taken
    within the int64 range of [torch.long].  Strings are byte strings. *)

Module SummarizeInputs.

Inductive error : Type :=
| IndexError
| RuntimeError
| ValueError
| AssertionError.

Definition res (A : Type) : Type := (error + A)%type.

Definition ebind {A B : Type} (c : res A) (f : A -> res B) : res B :=
  match c with
  | inl e => inl e
  | inr a => f a
  end.

Notation "x <-- c ;; k" := (ebind c (fun x => k))
  (at level 61, c at next level, right associativity).

(** The string constants of the file. *)
Module Literals.
Import Ascii String.
Definition rank_prefix : string := "rank"%string.
Definition engine_suffix : string := ".engine"%string.
Definition comma : ascii := ","%char.
Definition rank3_engine : string := "rank3.engine"%string.
Definition tasks_0_1 : string := "0,1"%string.
Definition float16_name : string := "float16"%string.
End Literals.

(** Lines 20-21: ['rank{}.engine'.format(rank)] for an integer rank. *)
Definition get_engine_name (rank : Z) : String.string :=
  String.append Literals.rank_prefix
    (String.append (DecimalString.NilZero.string_of_int (Z.to_int rank))
       Literals.engine_suffix).

(** A tensor of any rank. *)
Record nd (A : Type) : Type := mk_nd { shape : list nat; data : list A }.
Arguments mk_nd {A} _ _.
Arguments shape {A} _.
Arguments data {A} _.

Definition prod_shape (s : list nat) : nat := fold_right Nat.mul 1%nat s.

Definition wf {A : Type} (t : nd A) : Prop := length (data t) = prod_shape (shape t).

(** [t.shape[i]] and [t.size(i)]: [IndexError] past the rank. *)
Definition shape_at {A : Type} (t : nd A) (i : nat) : res nat :=
  match nth_error (shape t) i with
  | Some d => inr d
  | None => inl IndexError
  end.

(** [t.view(new_shape)] of a contiguous tensor: the same storage under a
    shape of as many elements. *)
Definition view {A : Type} (t : nd A) (new_shape : list nat) : res (nd A) :=
  if (prod_shape new_shape =? length (data t))%nat
  then inr (mk_nd new_shape (data t))
  else inl RuntimeError.

Definition in_int32 (z : Z) : bool := ((- 2 ^ 31 <=? z) && (z <? 2 ^ 31))%Z.

(** [torch.tensor(l, dtype=torch.int32)]: a value out of range is refused. *)
Definition tensor_int32 (l : list Z) : res (nd Z) :=
  if forallb in_int32 l then inr (mk_nd [length l] l) else inl RuntimeError.

(** [t.to(torch.int32)] on 64-bit integers wraps around. *)
Definition to_int32 (z : Z) : Z := ((z + 2 ^ 31) mod 2 ^ 32 - 2 ^ 31)%Z.

(** Element [t[r, c]] of a tensor whose last dimension is [h], and element
    [t[i, j, c]] of a tensor of shape [(_, s, h)]. *)
Definition at2 {A : Type} (d : A) (h : nat) (t : nd A) (r c : nat) : A :=
  nth (r * h + c) (data t) d.
Definition at3 {A : Type} (d : A) (s h : nat) (t : nd A) (i j c : nat) : A :=
  nth ((i * s + j) * h + c) (data t) d.

(** [s.split(',')]: the fields between the separators, at least one. *)
Fixpoint split_on (sep : Ascii.ascii) (s : String.string) : list String.string :=
  match s with
  | String.EmptyString => [String.EmptyString]
  | String.String c s' =>
      if Ascii.eqb c sep then String.EmptyString :: split_on sep s'
      else match split_on sep s' with
           | h :: t => String.String c h :: t
           | [] => [String.String c String.EmptyString]
           end
  end.

Definition comma : Ascii.ascii := Literals.comma.

Fixpoint count_char (sep : Ascii.ascii) (s : String.string) : nat :=
  match s with
  | String.EmptyString => 0%nat
  | String.String c s' =>
      ((if Ascii.eqb c sep then 1 else 0) + count_char sep s')%nat
  end.

(** The result list [[prompt_table, tasks, task_vocab_size]]; the last one is
    an int32 tensor on one branch and a float tensor on the other. *)
Inductive anytensor : Type :=
| FloatT (t : nd Qc)
| IntT (t : nd Z).

Record ptuning : Type := mk_ptuning {
  p_prompt_table : nd Qc;
  p_tasks : nd Z;
  p_task_vocab_size : anytensor
}.

(** A 2-D integer tensor. *)
Record mat : Type := mk_mat { rows : nat; cols : nat; mdata : list Z }.

Definition wf_mat (a : mat) : Prop := length (mdata a) = (rows a * cols a)%nat.

Definition mrow (c : nat) (l : list Z) (i : nat) : list Z :=
  firstn c (skipn (i * c) l).

Definition mat_at (a : mat) (i j : nat) : Z := nth (i * cols a + j) (mdata a) 0%Z.

(** [torch.cat([a, b], dim=1)] on 2-D tensors: the row counts must agree. *)
Definition cat1 (a b : mat) : res mat :=
  if (rows a =? rows b)%nat
  then inr (mk_mat (rows a) (cols a + cols b)
              (flat_map (fun i => mrow (cols a) (mdata a) i ++ mrow (cols b) (mdata b) i)
                        (seq 0 (rows a))))
  else inl RuntimeError.

(** [torch.sum(a, dim=1)]. *)
Definition sum1 (a : mat) : list Z :=
  map (fun i => fold_right Z.add 0%Z (mrow (cols a) (mdata a) i)) (seq 0 (rows a)).

(** [torch.arange(a, a + n)]. *)
Definition arange (a : Z) (n : nat) : list Z :=
  map (fun i => (a + Z.of_nat i)%Z) (seq 0 n).

Definition nd_of_mat (a : mat) : nd Z := mk_nd [rows a; cols a] (mdata a).
Definition nd_of_list (l : list Z) : nd Z := mk_nd [length l] l.

Section Setup.

(** [tensorrt_llm._utils.str_dtype_to_torch] and the element conversion of
    [Tensor.to(dtype=...)], the storage that [torch.empty] leaves
    uninitialised, and Python's [int] on a string ([None] for its
    [ValueError]): none of them is among the sources. *)
Variable str_dtype_to_torch : String.string -> res Summarize.torch_dtype.
Variable cast : Summarize.torch_dtype -> Qc -> Qc.
Variable torch_empty : nat -> list Qc.
Variable py_int : String.string -> option Z.

Fixpoint parse_tasks (fields : list String.string) : res (list Z) :=
  match fields with
  | [] => inr []
  | t :: rest =>
      match py_int t with
      | None => inl ValueError
      | Some z => zs <-- parse_tasks rest ;; inr (z :: zs)
      end
  end.

(** Lines 86-113. *)
Definition ptuning_setup (prompt_table : option (nd Qc)) (dtype : String.string)
    (hidden_size : nat) (tasks : option String.string)
    (input_ids input_lengths : nd Z) (remove_input_padding : bool)
    : res ptuning :=
  pt <-- match prompt_table with
         | Some t =>
             s1 <-- shape_at t 1 ;;
             task_vocab_size <-- tensor_int32 [Z.of_nat s1] ;;
             d0 <-- shape_at t 0 ;;
             d1 <-- shape_at t 1 ;;
             d2 <-- shape_at t 2 ;;
             v <-- view t [(d0 * d1)%nat; d2] ;;
             d <-- str_dtype_to_torch dtype ;;
             inr (mk_nd (shape v) (map (cast d) (data v)), IntT task_vocab_size)
         | None =>
             inr (mk_nd [1%nat; hidden_size] (torch_empty hidden_size),
                  FloatT (mk_nd [1%nat] [0]))
         end ;;
  num_sequences <-- (if remove_input_padding then shape_at input_lengths 0
                     else shape_at input_ids 0) ;;
  tasks' <-- match tasks with
             | Some s =>
                 l <-- parse_tasks (split_on comma s) ;;
                 t <-- tensor_int32 l ;;
                 if (length l =? num_sequences)%nat then inr t
                 else inl AssertionError
             | None => inr (mk_nd [num_sequences] (repeat 0%Z num_sequences))
             end ;;
  inr (mk_ptuning (fst pt) tasks' (snd pt)).

(** Lines 225-250 of [opt_blip2]: the attention mask and the input lengths,
    the prompt ids that stand for the image embeddings, the input ids, and
    the prompt-tuning arguments.  [tok_ids] and [tok_mask] are the
    tokenizer's [input_ids] and [attention_mask]. *)
Definition opt_blip2_inputs (vocab_size : Z) (dtype : String.string)
    (hidden_size : nat) (remove_input_padding : bool) (inputs_opt : nd Qc)
    (atts_opt tok_ids tok_mask : mat) : res (mat * list Z * ptuning) :=
  attention_mask <-- cat1 atts_opt tok_mask ;;
  let input_lengths := map to_int32 (sum1 attention_mask) in
  b <-- shape_at inputs_opt 0 ;;
  s <-- shape_at inputs_opt 1 ;;
  let fake_prompt_id := mk_mat b s (arange vocab_size (b * s)) in
  ids <-- cat1 fake_prompt_id tok_ids ;;
  let input_ids := mk_mat (rows ids) (cols ids) (map to_int32 (mdata ids)) in
  p <-- ptuning_setup (Some inputs_opt) dtype hidden_size None
          (nd_of_mat input_ids) (nd_of_list input_lengths) remove_input_padding ;;
  inr (input_ids, input_lengths, p).

End Setup.

(** Sample stand-ins for the helpers that are not among the sources, and
    small operands: every dtype name is float16, conversion keeps the value,
    uninitialised storage holds zeros, [int] reads plain decimal numerals. *)
Definition sample_str_dtype (name : String.string) : res Summarize.torch_dtype :=
  inr Summarize.torch_float16.
Definition sample_cast (d : Summarize.torch_dtype) (x : Qc) : Qc := x.
Definition sample_empty (n : nat) : list Qc := repeat 0 n.
Definition sample_py_int (s : String.string) : option Z :=
  option_map Z.of_int (DecimalString.NilZero.int_of_string s).

Definition sample_setup :=
  ptuning_setup sample_str_dtype sample_cast sample_empty sample_py_int.
Definition sample_inputs :=
  opt_blip2_inputs sample_str_dtype sample_cast sample_empty sample_py_int.

(** An embedding tensor of shape [(1, 2, 2)], a matrix, token ids and masks
    of shape [(1, 2)], and input ids of shape [(2, 3)]. *)
Definition sample_embeds : nd Qc :=
  mk_nd [1; 2; 2]%nat [Z2Qc 1; Z2Qc 2; Z2Qc 3; Z2Qc 4].
Definition sample_matrix : nd Qc := mk_nd [2; 2]%nat [Z2Qc 1; Z2Qc 2; Z2Qc 3; Z2Qc 4].
Definition sample_atts : mat := mk_mat 1 2 [1; 1]%Z.
Definition sample_tok_ids : mat := mk_mat 1 2 [5; 7]%Z.
Definition sample_tok_mask : mat := mk_mat 1 2 [1; 0]%Z.
Definition sample_input_ids : nd Z := mk_nd [2; 3]%nat [1; 2; 3; 4; 5; 6]%Z.
Definition sample_input_lengths : nd Z := mk_nd [2]%nat [3; 3]%Z.

End SummarizeInputs.
(** ** Shapes *)

Lemma has_shape_spec (r c : nat) (t : tensor) :
  has_shape r c t = true <->
  length t = r /\ Forall (fun row => length row = c) t.
Proof.
  unfold has_shape. rewrite andb_true_iff, Nat.eqb_eq, forallb_forall, Forall_forall.
  split; intros [Hl Hr]; split; auto; intros x Hx.
  - apply Nat.eqb_eq; auto.
  - apply Nat.eqb_eq; auto.
Qed.

Lemma map2_length (f : Qc -> Qc -> Qc) (a b : vec) :
  length a = length b -> length (map2 f a b) = length a.
Proof.
  intros H. unfold map2. rewrite length_map, length_combine. lia.
Qed.

Lemma bvec_same (f : Qc -> Qc -> Qc) (a b : vec) :
  length a = length b -> bvec f a b = ret (map2 f a b).
Proof.
  intros H. unfold bvec. rewrite H, Nat.eqb_refl. reflexivity.
Qed.

Lemma bvec_scalar (f : Qc -> Qc -> Qc) (a : vec) (y : Qc) :
  bvec f a [y] = ret (map (fun x => f x y) a).
Proof.
  unfold bvec. destruct a as [| x [| x' a']]; reflexivity.
Qed.

Lemma mapM_ret {A B : Type} (f : A -> result B) (g : A -> B) (l : list A) :
  Forall (fun x => f x = ret (g x)) l -> mapM f l = ret (map g l).
Proof.
  induction 1 as [| x l Hx _ IH]; simpl; [reflexivity |].
  rewrite Hx, IH. reflexivity.
Qed.

(** A single row broadcast over the rows of a tensor. *)
Lemma btensor_row (f : Qc -> Qc -> Qc) (g : vec -> vec) (t : tensor) (v : vec) :
  Forall (fun row => bvec f row v = ret (g row)) t ->
  btensor f t (as_row v) = ret (map g t).
Proof.
  intros H. unfold btensor, as_row.
  destruct t as [| x [| x' t']].
  - reflexivity.
  - simpl. inversion H as [| ? ? Hx _]; subst. rewrite Hx. reflexivity.
  - change (length (x :: x' :: t') =? length [v])%nat with false.
    change (length (x :: x' :: t') =? 1)%nat with false.
    change (length [v] =? 1)%nat with true.
    cbv iota. apply mapM_ret, H.
Qed.

Lemma same_shape_map (g : vec -> vec) (t : tensor) :
  Forall (fun row => length (g row) = length row) t ->
  same_shape (map g t) t = true.
Proof.
  intros H. unfold same_shape. rewrite length_map, Nat.eqb_refl. simpl.
  induction H as [| x l Hx _ IH]; simpl; [reflexivity |].
  rewrite Hx, Nat.eqb_refl. exact IH.
Qed.

Lemma inplace_row (f : Qc -> Qc -> Qc) (g : vec -> vec) (t : tensor) (v : vec) :
  Forall (fun row => bvec f row v = ret (g row)) t ->
  Forall (fun row => length (g row) = length row) t ->
  inplace f t (as_row v) = ret (map g t).
Proof.
  intros H Hl. unfold inplace. rewrite (btensor_row f g t v H). simpl.
  rewrite (same_shape_map g t Hl). reflexivity.
Qed.

Lemma has_shape_rows (r c : nat) (t : tensor) :
  has_shape r c t = true -> Forall (fun row => length row = c) t.
Proof. intros H. apply has_shape_spec in H. tauto. Qed.

Lemma has_shape_length (r c : nat) (t : tensor) :
  has_shape r c t = true -> length t = r.
Proof. intros H. apply has_shape_spec in H. tauto. Qed.

Lemma has_shape_nth (r c : nat) (t : tensor) (i : nat) :
  has_shape r c t = true -> (i < r)%nat -> length (nth i t []) = c.
Proof.
  intros H Hi. apply has_shape_spec in H. destruct H as [Hl Hr].
  rewrite Forall_forall in Hr. apply Hr, nth_In. lia.
Qed.

Lemma nth_map2 (f : Qc -> Qc -> Qc) (a b : vec) (j : nat) :
  (j < length a)%nat -> (j < length b)%nat ->
  nth j (map2 f a b) 0 = f (nth j a 0) (nth j b 0).
Proof.
  revert b j. induction a as [| x a IH]; intros [| y b] j Ha Hb; simpl in *; try lia.
  destruct j as [| j]; [reflexivity |]. apply IH; lia.
Qed.

(** ** Row lookup in a repeated tensor *)

Lemma nth_error_repeat_interleave (g : nat) (t : tensor) (i : nat) :
  (0 < g)%nat ->
  nth_error (repeat_interleave g t) i = nth_error t (i / g).
Proof.
  intros Hg. revert i. unfold repeat_interleave.
  induction t as [| row t IH]; intros i; simpl.
  - destruct i, (_ / g)%nat; reflexivity.
  - destruct (Nat.lt_ge_cases i g) as [Hlt | Hge].
    + rewrite nth_error_app1 by (rewrite repeat_length; exact Hlt).
      rewrite Nat.div_small by exact Hlt. simpl.
      apply nth_error_repeat; exact Hlt.
    + rewrite nth_error_app2 by (rewrite repeat_length; exact Hge).
      rewrite repeat_length, IH.
      replace i with ((i - g) + 1 * g)%nat at 2 by lia.
      rewrite Nat.div_add by lia.
      rewrite Nat.add_1_r. reflexivity.
Qed.

Lemma scale_rows_succ (k g : nat) :
  (0 < g)%nat -> ((k + g) / g = S (k / g))%nat.
Proof.
  intros Hg. replace (k + g)%nat with (k + 1 * g)%nat by lia.
  rewrite Nat.div_add by lia. lia.
Qed.

Lemma index_row_repeat_interleave (g k n : nat) (t : tensor) :
  (0 < g)%nat -> has_shape ((k + g) / g) n t = true ->
  index_row (repeat_interleave g t) k = ret (nth (k / g) t []) /\
  length (nth (k / g) t []) = n.
Proof.
  intros Hg Ht. unfold index_row.
  rewrite nth_error_repeat_interleave by exact Hg.
  assert (Hlt : (k / g < (k + g) / g)%nat) by (rewrite scale_rows_succ by exact Hg; lia).
  split.
  - rewrite (nth_error_nth' t [] ) by (rewrite (has_shape_length _ _ _ Ht); exact Hlt).
    reflexivity.
  - apply (has_shape_nth _ _ _ _ Ht Hlt).
Qed.

(** ** The reference weight *)

Lemma vscale_length (c : Qc) (v : vec) : length (vscale c v) = length v.
Proof. apply length_map. Qed.

Lemma dequant_row_length (u hz : bool) (sref zref row : vec) (n : nat) :
  length row = n -> length sref = n -> (hz = true -> length zref = n) ->
  length (dequant_row u hz sref zref row) = n.
Proof.
  intros Hr Hs Hz. unfold dequant_row.
  assert (Hw : length (map2 Qcminus (map2 Qcmult row sref)
                         (vscale (b2Qc u * Z2Qc 8) sref)) = n).
  { rewrite map2_length; rewrite map2_length by congruence;
      [congruence | rewrite vscale_length; congruence]. }
  destruct hz; [| exact Hw].
  rewrite map2_length; rewrite Hw; [reflexivity | symmetry; auto].
Qed.

Lemma ref_th_weight_value (k n g : nat) (q scale zero : tensor) (hz u : bool) :
  (0 < g)%nat ->
  has_shape k n q = true ->
  has_shape ((k + g) / g) n scale = true ->
  (hz = true -> has_shape ((k + g) / g) n zero = true) ->
  ref_th_weight_of q scale zero g hz u =
    ret (map (dequant_row u hz (nth (k / g) scale []) (nth (k / g) zero [])) q).
Proof.
  intros Hg Hq Hs Hz. unfold ref_th_weight_of.
  rewrite (has_shape_length _ _ _ Hq).
  destruct (index_row_repeat_interleave g k n scale Hg Hs) as [Es Ls].
  rewrite Es. simpl bind.
  set (sref := nth (k / g) scale []) in *.
  pose proof (has_shape_rows _ _ _ Hq) as Hrows.
  rewrite (btensor_row Qcmult (fun row => map2 Qcmult row sref)).
  2:{ eapply Forall_impl; [| exact Hrows]. intros row Hr. apply bvec_same. congruence. }
  simpl bind.
  rewrite (btensor_row Qcminus
             (fun row => map2 Qcminus row (vscale (b2Qc u * Z2Qc 8) sref))).
  2:{ apply Forall_map. eapply Forall_impl; [| exact Hrows]. intros row Hr.
      apply bvec_same. rewrite map2_length, vscale_length; congruence. }
  simpl bind. rewrite map_map.
  destruct hz.
  - destruct (index_row_repeat_interleave g k n zero Hg (Hz eq_refl)) as [Ez Lz].
    rewrite Ez. simpl bind.
    set (zref := nth (k / g) zero []) in *.
    assert (Hlen : Forall (fun row => length (map2 Qcminus (map2 Qcmult row sref)
                       (vscale (b2Qc u * Z2Qc 8) sref)) = n) q).
    { eapply Forall_impl; [| exact Hrows]. intros row Hr.
      rewrite map2_length; rewrite map2_length by congruence;
        [congruence | rewrite vscale_length; congruence]. }
    rewrite (inplace_row Qcplus (fun row => map2 Qcplus row zref)).
    + rewrite map_map. reflexivity.
    + apply Forall_map. eapply Forall_impl; [| exact Hlen]. intros row Hr.
      apply bvec_same. congruence.
    + apply Forall_map. eapply Forall_impl; [| exact Hlen]. intros row Hr.
      apply map2_length. congruence.
  - reflexivity.
Qed.

(** X1: the entries of the reference weight as lines 166-173 compute them:
    every row uses the scale row (and the zero row) of index [k / g],
    whatever its own index. *)
Lemma ref_th_weight_entry (k n g : nat) (q scale zero : tensor) (hz u : bool)
    (r c : nat) :
  (0 < g)%nat ->
  has_shape k n q = true ->
  has_shape ((k + g) / g) n scale = true ->
  (hz = true -> has_shape ((k + g) / g) n zero = true) ->
  (r < k)%nat -> (c < n)%nat ->
  exists w, ref_th_weight_of q scale zero g hz u = ret w /\
    has_shape k n w = true /\
    entry w r c =
      entry q r c * entry scale (k / g) c
      - b2Qc u * Z2Qc 8 * entry scale (k / g) c
      + (if hz then entry zero (k / g) c else 0).
Proof.
  intros Hg Hq Hs Hz Hr Hc.
  rewrite (ref_th_weight_value k n g q scale zero hz u Hg Hq Hs Hz).
  eexists; split; [reflexivity |].
  destruct (index_row_repeat_interleave g k n scale Hg Hs) as [_ Ls].
  assert (Lz : hz = true -> length (nth (k / g) zero []) = n).
  { intros E. apply (index_row_repeat_interleave g k n zero Hg (Hz E)). }
  pose proof (has_shape_length _ _ _ Hq) as Lq.
  pose proof (has_shape_rows _ _ _ Hq) as Hrows.
  split.
  - apply has_shape_spec. split; [rewrite length_map; exact Lq |].
    apply Forall_map. eapply Forall_impl; [| exact Hrows].
    intros row Hrow. apply dequant_row_length; auto.
  - unfold entry.
    rewrite (nth_indep _ [] (dequant_row u hz (nth (k / g) scale [])
                               (nth (k / g) zero []) []))
      by (rewrite length_map; lia).
    rewrite map_nth.
    assert (Lr : length (nth r q []) = n) by (apply (has_shape_nth _ _ _ _ Hq Hr)).
    set (row := nth r q []) in *. set (sref := nth (k / g) scale []) in *.
    set (zref := nth (k / g) zero []) in *.
    unfold dequant_row.
    assert (Hw : nth c (map2 Qcminus (map2 Qcmult row sref)
                         (vscale (b2Qc u * Z2Qc 8) sref)) 0
                 = nth c row 0 * nth c sref 0 - b2Qc u * Z2Qc 8 * nth c sref 0).
    { rewrite nth_map2.
      - rewrite nth_map2 by lia. f_equal.
        unfold vscale.
        rewrite (nth_indep _ 0 ((b2Qc u * Z2Qc 8) * 0)) by (rewrite length_map; lia).
        rewrite (map_nth (Qcmult (b2Qc u * Z2Qc 8))). reflexivity.
      - rewrite map2_length; lia.
      - rewrite vscale_length; lia. }
    destruct hz.
    + rewrite nth_map2.
      * rewrite Hw. reflexivity.
      * rewrite map2_length; rewrite map2_length; try rewrite vscale_length; lia.
      * rewrite (Lz eq_refl). lia.
    + rewrite Hw. ring.
Qed.

(** ** The activation path *)

Lemma inplace_scalar (f : Qc -> Qc -> Qc) (t : tensor) (y : Qc) :
  inplace f t (as_row [y]) = ret (map (map (fun x => f x y)) t).
Proof.
  apply inplace_row.
  - apply Forall_forall. intros row _. apply bvec_scalar.
  - apply Forall_forall. intros row _. apply length_map.
Qed.

Lemma zip_rows_repeat (f : Qc -> Qc -> Qc) (p : vec) (a : tensor) :
  Forall (fun row => length row = length p) a ->
  zip_rows f a (repeat p (length a)) = ret (map (fun row => map2 f row p) a).
Proof.
  induction 1 as [| row a Hrow _ IH]; simpl; [reflexivity |].
  rewrite (bvec_same f row p Hrow). simpl. rewrite IH. reflexivity.
Qed.

Lemma trepeat_single (m : nat) (p : vec) : trepeat m [p] = repeat p m.
Proof.
  unfold trepeat. induction m as [| m IH]; simpl; [reflexivity |].
  rewrite IH. reflexivity.
Qed.

Lemma shape_one_row (c : nat) (t : tensor) :
  has_shape 1 c t = true -> t = [hd [] t] /\ length (hd [] t) = c.
Proof.
  intros H. apply has_shape_spec in H. destruct H as [Hl Hr].
  destruct t as [| p [| p' t']]; simpl in Hl; try discriminate.
  inversion Hr; subst. split; reflexivity.
Qed.

Lemma btensor_tiled (f : Qc -> Qc -> Qc) (m k : nat) (a pqs : tensor) :
  has_shape m k a = true -> has_shape 1 k pqs = true ->
  btensor f a (trepeat m pqs) = ret (map (fun row => map2 f row (hd [] pqs)) a).
Proof.
  intros Ha Hp. destruct (shape_one_row k pqs Hp) as [E Lp].
  rewrite E at 1. rewrite trepeat_single. unfold btensor.
  rewrite repeat_length, (has_shape_length _ _ _ Ha), Nat.eqb_refl.
  rewrite <- (has_shape_length _ _ _ Ha). apply zip_rows_repeat.
  eapply Forall_impl; [| exact (has_shape_rows _ _ _ Ha)].
  intros row Hr. congruence.
Qed.

(** Lines 182-187 on an activation of shape [m x k]: the scalar alpha is
    applied first, the per-channel scale second. *)
Lemma ref_activation_value (m k : nat) (w4 hpq : bool) (act : tensor)
    (alpha : vec) (pqs : tensor) :
  has_shape m k act = true -> has_shape 1 k pqs = true ->
  (w4 = true -> length alpha = 1%nat) ->
  ref_activation_of m w4 hpq act alpha pqs =
    ret (let a1 := if w4 then map (map (fun x => x * hd 0 alpha)) act else act in
         if hpq then map (fun row => map2 Qcmult row (hd [] pqs)) a1 else a1).
Proof.
  intros Ha Hp Hal. unfold ref_activation_of.
  assert (Ha1 : has_shape m k
            (if w4 then map (map (fun x => x * hd 0 alpha)) act else act) = true).
  { destruct w4; [| exact Ha]. apply has_shape_spec. apply has_shape_spec in Ha.
    destruct Ha as [Hl Hr]. split; [rewrite length_map; exact Hl |].
    apply Forall_map. eapply Forall_impl; [| exact Hr].
    intros row Hrow. rewrite length_map. exact Hrow. }
  assert (E1 : (if w4 then inplace Qcmult act (as_row alpha) else ret act) =
               ret (if w4 then map (map (fun x => x * hd 0 alpha)) act else act)).
  { destruct w4; [| reflexivity].
    destruct alpha as [| y [| y' al]]; try (specialize (Hal eq_refl); discriminate).
    apply inplace_scalar. }
  rewrite E1. simpl bind. cbv zeta.
  destruct hpq; [| reflexivity].
  apply (btensor_tiled Qcmult m k _ pqs Ha1 Hp).
Qed.

(** ** Matrix product *)

Lemma sumr_succ (k : nat) (f : nat -> Qc) :
  sumr (S k) f = f 0%nat + sumr k (fun r => f (S r)).
Proof.
  unfold sumr. simpl. rewrite <- seq_shift, map_map. reflexivity.
Qed.

Lemma sumr_ext (k : nat) (f g : nat -> Qc) :
  (forall r, (r < k)%nat -> f r = g r) -> sumr k f = sumr k g.
Proof.
  revert f g. induction k as [| k IH]; intros f g H; [reflexivity |].
  rewrite !sumr_succ. rewrite (H 0%nat) by lia. f_equal.
  apply IH. intros r Hr. apply H. lia.
Qed.

Lemma dot_sumr (a b : vec) :
  length a = length b ->
  dot a b = sumr (length a) (fun r => nth r a 0 * nth r b 0).
Proof.
  revert b. induction a as [| x a IH]; intros [| y b] H; simpl in H; try discriminate.
  - reflexivity.
  - simpl length. rewrite sumr_succ. simpl.
    unfold dot in *. simpl. f_equal. apply IH. lia.
Qed.

Lemma column_length (j : nat) (w : tensor) : length (column j w) = length w.
Proof. apply length_map. Qed.

Lemma nth_column (j r : nat) (w : tensor) :
  nth r (column j w) 0 = entry w r j.
Proof.
  unfold column, entry.
  destruct (Nat.lt_ge_cases r (length w)) as [Hlt | Hge].
  - rewrite (nth_indep _ 0 (nth j [] 0)) by (rewrite length_map; exact Hlt).
    rewrite (map_nth (fun row => nth j row 0)). reflexivity.
  - rewrite nth_overflow by (rewrite length_map; exact Hge).
    rewrite (nth_overflow w) by exact Hge. destruct j; reflexivity.
Qed.

Lemma matmul_shape_ok (m k : nat) (a w : tensor) :
  has_shape m k a = true -> length w = k ->
  matmul a w =
    ret (map (fun row => map (fun j => dot row (column j w)) (seq 0 (ncols w))) a).
Proof.
  intros Ha Hw. unfold matmul.
  replace (forallb (fun row => (length row =? length w)%nat) a) with true; [reflexivity |].
  symmetry. apply forallb_forall. intros row Hin. apply Nat.eqb_eq.
  pose proof (has_shape_rows _ _ _ Ha) as Hr. rewrite Forall_forall in Hr.
  rewrite (Hr row Hin). congruence.
Qed.

Lemma ncols_shape (k n : nat) (w : tensor) :
  has_shape k n w = true -> (0 < k)%nat -> ncols w = n.
Proof.
  intros Hw Hk. unfold ncols.
  replace (hd [] w) with (nth 0 w []) by (destruct w; reflexivity).
  apply (has_shape_nth _ _ _ _ Hw Hk).
Qed.

(** The entries of a product are the sums of the claim. *)
Lemma matmul_entry (m k n : nat) (a w : tensor) :
  has_shape m k a = true -> has_shape k n w = true -> (0 < k)%nat ->
  exists out, matmul a w = ret out /\ has_shape m n out = true /\
    forall i j, (i < m)%nat -> (j < n)%nat ->
      entry out i j = sumr k (fun r => entry a i r * entry w r j).
Proof.
  intros Ha Hw Hk.
  rewrite (matmul_shape_ok m k a w Ha (has_shape_length _ _ _ Hw)).
  rewrite (ncols_shape k n w Hw Hk).
  eexists; split; [reflexivity |]. split.
  - apply has_shape_spec. split.
    + rewrite length_map. apply (has_shape_length _ _ _ Ha).
    + apply Forall_map, Forall_forall. intros row _.
      rewrite length_map, length_seq. reflexivity.
  - intros i j Hi Hj. unfold entry at 1.
    rewrite (nth_indep _ [] (map (fun j0 => dot [] (column j0 w)) (seq 0 n)))
      by (rewrite length_map, (has_shape_length _ _ _ Ha); exact Hi).
    rewrite (map_nth (fun row => map (fun j0 => dot row (column j0 w)) (seq 0 n))).
    rewrite (nth_indep _ 0 (dot (nth i a []) (column 0 w)))
      by (rewrite length_map, length_seq; exact Hj).
    rewrite (map_nth (fun j0 => dot (nth i a []) (column j0 w))).
    rewrite seq_nth by exact Hj. simpl.
    assert (Li : length (nth i a []) = k) by apply (has_shape_nth _ _ _ _ Ha Hi).
    rewrite dot_sumr by (rewrite column_length, (has_shape_length _ _ _ Hw); exact Li).
    rewrite Li. apply sumr_ext. intros r Hr.
    rewrite nth_column. reflexivity.
Qed.

Lemma numel_one_row (c : nat) (t : tensor) :
  has_shape 1 c t = true -> numel t = c.
Proof.
  intros H. destruct (shape_one_row c t H) as [E L].
  rewrite E. unfold numel. simpl. rewrite app_nil_r. exact L.
Qed.

Lemma entry_map_row (g : vec -> vec) (t : tensor) (i j : nat) :
  (i < length t)%nat -> entry (map g t) i j = nth j (g (nth i t [])) 0.
Proof.
  intros Hi. unfold entry.
  rewrite (nth_indep _ [] (g [])) by (rewrite length_map; exact Hi).
  rewrite map_nth. reflexivity.
Qed.

(** Adding a present bias of shape [1 x n] to a result of shape [m x n]. *)
Lemma add_bias_value (m n : nat) (out bias : tensor) :
  has_shape m n out = true -> has_shape 1 n bias = true ->
  inplace Qcplus out bias =
    ret (map (fun row => map2 Qcplus row (hd [] bias)) out).
Proof.
  intros Ho Hb. destruct (shape_one_row n bias Hb) as [E Lb].
  rewrite E at 1. change [hd [] bias] with (as_row (hd [] bias)).
  pose proof (has_shape_rows _ _ _ Ho) as Hr.
  apply inplace_row.
  - eapply Forall_impl; [| exact Hr]. intros row Hrow. apply bvec_same. congruence.
  - eapply Forall_impl; [| exact Hr]. intros row Hrow. apply map2_length. congruence.
Qed.

(** ** Zero activations and unit bias *)

Lemma map_const_repeat {A B : Type} (b : B) (l : list A) :
  map (fun _ => b) l = repeat b (length l).
Proof. induction l as [| x l IH]; simpl; [reflexivity | rewrite IH; reflexivity]. Qed.

Lemma map_repeat_eq {A B : Type} (f : A -> B) (x : A) (n : nat) :
  map f (repeat x n) = repeat (f x) n.
Proof. induction n as [| n IH]; simpl; [reflexivity | rewrite IH; reflexivity]. Qed.

Lemma map_rows_shape (g : vec -> vec) (v : vec) (r c : nat) (t : tensor) :
  has_shape r c t = true ->
  (forall row, length row = c -> g row = v) ->
  map g t = repeat v r.
Proof.
  intros Ht Hg. apply has_shape_spec in Ht. destruct Ht as [Hl Hr]. subst r.
  induction Hr as [| row t Hrow _ IH]; simpl; [reflexivity |].
  rewrite (Hg row Hrow), IH. reflexivity.
Qed.

Lemma zeros_like_shape (r c : nat) (t : tensor) :
  has_shape r c t = true -> zeros_like t = repeat (repeat 0 c) r.
Proof.
  intros Ht. unfold zeros_like. apply (map_rows_shape _ _ r c t Ht).
  intros row Hrow. rewrite map_const_repeat, Hrow. reflexivity.
Qed.

Lemma ones_like_shape (r c : nat) (t : tensor) :
  has_shape r c t = true -> ones_like t = repeat (repeat 1 c) r.
Proof.
  intros Ht. unfold ones_like. apply (map_rows_shape _ _ r c t Ht).
  intros row Hrow. rewrite map_const_repeat, Hrow. reflexivity.
Qed.

Lemma has_shape_repeat (r c : nat) (x : Qc) :
  has_shape r c (repeat (repeat x c) r) = true.
Proof.
  apply has_shape_spec. split; [apply repeat_length |].
  apply Forall_forall. intros row Hin. apply repeat_spec in Hin. subst row.
  apply repeat_length.
Qed.

Lemma map2_zero_mult (c : nat) (p : vec) :
  length p = c -> map2 Qcmult (repeat 0 c) p = repeat 0 c.
Proof.
  revert p. induction c as [| c IH]; intros [| y p] H; simpl in H; try discriminate.
  - reflexivity.
  - unfold map2 in *. simpl. rewrite IH by lia. f_equal. ring.
Qed.

Lemma map2_zero_plus (c : nat) (p : vec) :
  length p = c -> map2 Qcplus (repeat 0 c) p = p.
Proof.
  revert p. induction c as [| c IH]; intros [| y p] H; simpl in H; try discriminate.
  - reflexivity.
  - unfold map2 in *. simpl. rewrite IH by lia. f_equal. ring.
Qed.

Lemma dot_zero_l (c : nat) (v : vec) : dot (repeat 0 c) v = 0.
Proof.
  revert v. induction c as [| c IH]; intros v; [reflexivity |].
  destruct v as [| y v]; [reflexivity |].
  specialize (IH v). unfold dot, map2 in *. simpl. rewrite IH. ring.
Qed.

(** Lines 182-187 leave an all-zero activation all-zero. *)
Lemma ref_activation_zero (m k : nat) (w4 hpq : bool) (alpha : vec) (pqs : tensor) :
  has_shape 1 k pqs = true -> (w4 = true -> length alpha = 1%nat) ->
  ref_activation_of m w4 hpq (repeat (repeat 0 k) m) alpha pqs =
    ret (repeat (repeat 0 k) m).
Proof.
  intros Hp Hal.
  rewrite (ref_activation_value m k w4 hpq _ alpha pqs (has_shape_repeat m k 0) Hp Hal).
  cbv zeta. f_equal.
  assert (E1 : (if w4 then map (map (fun x => x * hd 0 alpha)) (repeat (repeat 0 k) m)
                else repeat (repeat 0 k) m) = repeat (repeat 0 k) m).
  { destruct w4; [| reflexivity].
    rewrite !map_repeat_eq. f_equal. f_equal. ring. }
  rewrite E1. destruct hpq; [| reflexivity].
  rewrite map_repeat_eq. f_equal. apply map2_zero_mult.
  apply (shape_one_row k pqs Hp).
Qed.

(** A zero activation times any weight of [k > 0] rows and [n] columns. *)
Lemma matmul_zero (m k n : nat) (w : tensor) :
  has_shape k n w = true -> (0 < k)%nat ->
  matmul (repeat (repeat 0 k) m) w = ret (repeat (repeat 0 n) m).
Proof.
  intros Hw Hk.
  rewrite (matmul_shape_ok m k _ w (has_shape_repeat m k 0) (has_shape_length _ _ _ Hw)).
  rewrite (ncols_shape k n w Hw Hk). f_equal.
  rewrite map_repeat_eq. f_equal.
  rewrite (map_ext _ (fun _ => 0)) by (intros j; apply dot_zero_l).
  rewrite map_const_repeat, length_seq. reflexivity.
Qed.

(** The reference product of line 189 once lines 175-176 have run. *)
Lemma gt_matmul_zero_ones (m k n : nat) (w bias0 : tensor) (hb : bool) :
  has_shape k n w = true -> (0 < k)%nat ->
  (if hb then has_shape 1 n bias0 = true else bias0 = torch_Tensor) ->
  woq_groupwise_gt_matmul (repeat (repeat 0 k) m) w (ones_like bias0) =
    ret (repeat (repeat (b2Qc hb) n) m).
Proof.
  intros Hw Hk Hb. unfold woq_groupwise_gt_matmul.
  rewrite (matmul_zero m k n w Hw Hk). simpl bind.
  destruct hb.
  - rewrite (ones_like_shape 1 n bias0 Hb).
    rewrite (numel_one_row n _ (has_shape_repeat 1 n 1)).
    destruct n as [| n]; [destruct m; reflexivity |].
    change (S n =? 0)%nat with false. cbv iota.
    rewrite (add_bias_value m (S n) _ _ (has_shape_repeat m (S n) 0) (has_shape_repeat 1 (S n) 1)).
    f_equal. rewrite map_repeat_eq. f_equal.
    apply map2_zero_plus. apply repeat_length.
  - subst bias0. reflexivity.
Qed.

Lemma has_shape_tscale (r c : nat) (x : Qc) (t : tensor) :
  has_shape r c t = true -> has_shape r c (tscale x t) = true.
Proof.
  intros H. apply has_shape_spec in H. destruct H as [Hl Hr].
  apply has_shape_spec. unfold tscale. split; [rewrite length_map; exact Hl |].
  apply Forall_map. eapply Forall_impl; [| exact Hr].
  intros row Hrow. rewrite length_map. exact Hrow.
Qed.

(** ** The whole reference run *)

Section ReferenceRun.

Variable rng : Type.
Variable manual_seed : nat -> rng.
Variable woq_gen_weights : nat -> nat -> dtype_name -> rng -> tensor * rng.
Variable randint : nat -> nat -> rng -> packed * rng.
Variable randn : rng -> Qc * rng.
Variable woq_groupwise_extract_int4 : packed -> bool -> tensor.

(** What the data sources promise: the requested shapes, and eight unpacked
    rows for every packed row. *)
Hypothesis gen_shape :
  forall r c d s, has_shape r c (fst (woq_gen_weights r c d s)) = true.
Hypothesis randint_shape :
  forall r c s, packed_has_shape r c (fst (randint r c s)) = true.
Hypothesis extract_shape :
  forall p u r c, packed_has_shape r c p = true ->
    has_shape (8 * r) c (woq_groupwise_extract_int4 p u) = true.

Local Abbreviation run :=
  (_woq_groupwise_matmul rng manual_seed woq_gen_weights randint randn
     woq_groupwise_extract_int4).

Lemma reference_run (m n k : nat) (d : dtype_name) (hpq hz hb : bool)
    (g : nat) (u w4 : bool) :
  (0 < g)%nat -> (0 < k)%nat -> (k mod 8 = 0)%nat ->
  exists L, run m n k d hpq hz hb g u w4 = ret L /\
    l_ref L = repeat (repeat (b2Qc hb) n) m /\
    l_activation L = repeat (repeat 0 k) m /\
    l_bias L = (if hb then repeat (repeat 1 n) 1 else torch_Tensor) /\
    has_shape 1 k (l_pre_quant_scale L) = true /\
    has_shape ((k + g) / g) n (l_scale L) = true /\
    (if hz then has_shape ((k + g) / g) n (l_zero L) = true
     else l_zero L = torch_Tensor) /\
    length (l_fp8_alpha L) = (if w4 then 1 else 0)%nat /\
    l_quant_algo L = quant_algo_of w4 hpq hz hb /\
    has_shape k n (l_qweight_int8 L) = true /\
    has_shape k n (l_ref_th_weight L) = true.
Proof.
  intros Hg Hk Hk8. unfold _woq_groupwise_matmul.
  pose proof (gen_shape m k d (manual_seed 0)) as Sa.
  destruct (woq_gen_weights m k d (manual_seed 0)) as [act s1]. simpl in Sa.
  pose proof (gen_shape 1 k d s1) as Sp.
  destruct (woq_gen_weights 1 k d s1) as [pqs s2]. simpl in Sp.
  pose proof (randint_shape (k / 8) n s2) as Sq.
  destruct (randint (k / 8) n s2) as [qw s3]. simpl in Sq.
  replace (g =? 0)%nat with false by (symmetry; apply Nat.eqb_neq; lia).
  pose proof (gen_shape ((k + g) / g) n d s3) as Ss.
  destruct (woq_gen_weights ((k + g) / g) n d s3) as [sc s4]. simpl in Ss.
  apply (has_shape_tscale _ _ (Z2Qc 2)) in Ss.
  set (scale := tscale (Z2Qc 2) sc) in *.
  assert (Hzero : exists zero s5,
    (if hz then let '(z, s') := woq_gen_weights ((k + g) / g) n d s4 in
                (tscale (Z2Qc 2) z, s')
     else (torch_Tensor, s4)) = (zero, s5) /\
    (if hz then has_shape ((k + g) / g) n zero = true else zero = torch_Tensor)).
  { destruct hz.
    - pose proof (gen_shape ((k + g) / g) n d s4) as Sz.
      destruct (woq_gen_weights ((k + g) / g) n d s4) as [z s5]. simpl in Sz.
      exists (tscale (Z2Qc 2) z), s5. split; [reflexivity |].
      apply has_shape_tscale, Sz.
    - exists torch_Tensor, s4. split; reflexivity. }
  destruct Hzero as (zero & s5 & Ez & Sz). rewrite Ez.
  assert (Hbias : exists bias s6,
    (if hb then woq_gen_weights 1 n d s5 else (torch_Tensor, s5)) = (bias, s6) /\
    (if hb then has_shape 1 n bias = true else bias = torch_Tensor)).
  { destruct hb.
    - pose proof (gen_shape 1 n d s5) as Sb.
      destruct (woq_gen_weights 1 n d s5) as [b s6]. simpl in Sb.
      exists b, s6. split; [reflexivity | exact Sb].
    - exists torch_Tensor, s5. split; reflexivity. }
  destruct Hbias as (bias & s6 & Eb & Sb). rewrite Eb.
  assert (Halpha : exists alpha s7,
    (if w4 then let '(x, s') := randn s6 in ([x + Q2Qc (1 # 2)], s')
     else ([], s6)) = (alpha, s7) /\
    length alpha = (if w4 then 1 else 0)%nat).
  { destruct w4.
    - destruct (randn s6) as [x s7]. exists [x + Q2Qc (1 # 2)], s7.
      split; reflexivity.
    - exists [], s6. split; reflexivity. }
  destruct Halpha as (alpha & s7 & Eal & Lal). rewrite Eal.
  pose proof (extract_shape qw u (k / 8) n Sq) as Sqi.
  replace (8 * (k / 8))%nat with k in Sqi
    by (rewrite (Nat.div_mod_eq k 8) at 1; lia).
  set (q := woq_groupwise_extract_int4 qw u) in *.
  assert (Hz' : hz = true -> has_shape ((k + g) / g) n zero = true).
  { intros E. rewrite E in Sz. exact Sz. }
  assert (Hw : exists w, ref_th_weight_of q scale zero g hz u = ret w /\
                         has_shape k n w = true).
  { rewrite (ref_th_weight_value k n g q scale zero hz u Hg Sqi Ss Hz').
    eexists; split; [reflexivity |].
    destruct (index_row_repeat_interleave g k n scale Hg Ss) as [_ Ls].
    apply has_shape_spec. split.
    - rewrite length_map. apply (has_shape_length _ _ _ Sqi).
    - apply Forall_map. eapply Forall_impl; [| exact (has_shape_rows _ _ _ Sqi)].
      intros row Hrow. apply dequant_row_length; auto.
      intros E. apply (index_row_repeat_interleave g k n zero Hg (Hz' E)). }
  destruct Hw as (w & Ew & Sw). rewrite Ew. simpl bind.
  rewrite (zeros_like_shape m k act Sa).
  rewrite (ref_activation_zero m k w4 hpq alpha pqs Sp)
    by (intros E; rewrite E in Lal; exact Lal).
  simpl bind.
  rewrite (gt_matmul_zero_ones m k n w bias hb Sw Hk Sb). simpl bind.
  eexists; split; [reflexivity |]. simpl.
  repeat split; auto.
  destruct hb.
  - apply (ones_like_shape 1 n bias Sb).
  - subst bias. reflexivity.
Qed.

End ReferenceRun.

(** ** The sample sources keep their promises *)

Lemma sample_gen_shape (r c : nat) (d : dtype_name) (s : nat) :
  has_shape r c (fst (sample_gen r c d s)) = true.
Proof.
  apply has_shape_spec. simpl. unfold sample_tensor. split.
  - rewrite length_map, length_seq. reflexivity.
  - apply Forall_map, Forall_forall. intros i _.
    rewrite length_map, length_seq. reflexivity.
Qed.

Lemma sample_randint_shape (r c : nat) (s : nat) :
  packed_has_shape r c (fst (sample_randint r c s)) = true.
Proof.
  unfold packed_has_shape. simpl. rewrite length_map, length_seq, Nat.eqb_refl. simpl.
  apply forallb_forall. intros row Hin. apply in_map_iff in Hin.
  destruct Hin as (i & E & _). subst row.
  rewrite length_map, length_seq. apply Nat.eqb_refl.
Qed.

Lemma sample_extract_shape (p : packed) (u : bool) (r c : nat) :
  packed_has_shape r c p = true -> has_shape (8 * r) c (sample_extract p u) = true.
Proof.
  unfold packed_has_shape. rewrite andb_true_iff, Nat.eqb_eq, forallb_forall.
  intros [Hl Hr]. apply has_shape_spec. subst r. unfold sample_extract.
  induction p as [| row p IH]; [split; [reflexivity | constructor] |].
  destruct IH as [IHl IHr]; [intros x Hx; apply Hr; right; exact Hx |].
  assert (Hrow : length row = c) by (apply Nat.eqb_eq, Hr; left; reflexivity).
  cbn [flat_map]. split.
  - rewrite length_app. transitivity (8 + 8 * length p)%nat; [| cbn [length]; lia].
    rewrite length_map, length_seq. apply (f_equal (Nat.add 8)). exact IHl.
  - apply Forall_app. split; [| exact IHr].
    apply Forall_map, Forall_forall. intros i _. rewrite length_map. exact Hrow.
Qed.

(** ** Entries of scaled activations *)

Lemma entry_map_map (f : Qc -> Qc) (t : tensor) (r c i j : nat) :
  has_shape r c t = true -> (i < r)%nat -> (j < c)%nat ->
  entry (map (map f) t) i j = f (entry t i j).
Proof.
  intros Ht Hi Hj.
  rewrite entry_map_row by (rewrite (has_shape_length _ _ _ Ht); exact Hi).
  unfold entry.
  rewrite (nth_indep _ 0 (f 0))
    by (rewrite length_map, (has_shape_nth _ _ _ _ Ht Hi); exact Hj).
  apply map_nth.
Qed.

Lemma entry_single_row (c : nat) (t : tensor) (j : nat) :
  has_shape 1 c t = true -> entry t 0 j = nth j (hd [] t) 0.
Proof.
  intros H. destruct (shape_one_row c t H) as [E _].
  unfold entry. rewrite E at 1. reflexivity.
Qed.

Lemma entry_prescaled (p : vec) (t : tensor) (r c i j : nat) :
  has_shape r c t = true -> length p = c -> (i < r)%nat -> (j < c)%nat ->
  entry (map (fun row => map2 Qcmult row p) t) i j = entry t i j * nth j p 0.
Proof.
  intros Ht Hp Hi Hj.
  rewrite entry_map_row by (rewrite (has_shape_length _ _ _ Ht); exact Hi).
  apply nth_map2; [rewrite (has_shape_nth _ _ _ _ Ht Hi); exact Hj | lia].
Qed.

Lemma has_shape_map_rows (g : vec -> vec) (r c : nat) (t : tensor) :
  has_shape r c t = true ->
  (forall row, length row = c -> length (g row) = c) ->
  has_shape r c (map g t) = true.
Proof.
  intros Ht Hg. apply has_shape_spec in Ht. destruct Ht as [Hl Hr].
  apply has_shape_spec. split; [rewrite length_map; exact Hl |].
  apply Forall_map. eapply Forall_impl; [| exact Hr].
  intros row Hrow. apply Hg, Hrow.
Qed.

(** ** Moving a per-channel scale across the product *)






(** ** Counting elements and reading flags *)

Lemma numel_shape (r c : nat) (t : tensor) :
  has_shape r c t = true -> numel t = (r * c)%nat.
Proof.
  intros H. apply has_shape_spec in H. destruct H as [Hl Hr]. subst r.
  unfold numel. induction Hr as [| row t Hrow _ IH]; [reflexivity |].
  cbn [concat length]. rewrite length_app, IH, Hrow. lia.
Qed.

Lemma flag_set_quant_algo (w4 hpq hz hb : bool) :
  flag_set (quant_algo_of w4 hpq hz hb) BIAS = hb /\
  flag_set (quant_algo_of w4 hpq hz hb) ZERO = hz /\
  flag_set (quant_algo_of w4 hpq hz hb) PRE_QUANT_SCALE = hpq /\
  flag_set (quant_algo_of w4 hpq hz hb) W4A8_AWQ = w4.
Proof. destruct w4, hpq, hz, hb; repeat split; reflexivity. Qed.

(** ** Group indices *)

(** Every weight row index below [k] maps to an allocated group row. *)
Lemma group_index_in_range (k g r : nat) :
  (0 < g)%nat -> (r < k)%nat -> (r / g < (k + g) / g)%nat.
Proof.
  intros Hg Hr. rewrite (scale_rows_succ k g Hg).
  apply Nat.lt_succ_r. apply Nat.Div0.div_le_mono. lia.
Qed.

(** X2: the two row lookups of lines 167 and 172 never leave the repeated
    tensors, so the reference weight is always produced. *)
Lemma reference_lookups_in_range (k n g : nat) (q scale zero : tensor) (hz u : bool) :
  (0 < g)%nat ->
  has_shape k n q = true ->
  has_shape ((k + g) / g) n scale = true ->
  (hz = true -> has_shape ((k + g) / g) n zero = true) ->
  index_row (repeat_interleave g scale) k = ret (nth (k / g) scale []) /\
  (hz = true -> index_row (repeat_interleave g zero) k = ret (nth (k / g) zero [])) /\
  exists w, ref_th_weight_of q scale zero g hz u = ret w.
Proof.
  intros Hg Hq Hs Hz. split; [| split].
  - apply (index_row_repeat_interleave g k n scale Hg Hs).
  - intros E. apply (index_row_repeat_interleave g k n zero Hg (Hz E)).
  - rewrite (ref_th_weight_value k n g q scale zero hz u Hg Hq Hs Hz).
    eexists. reflexivity.
Qed.

(** ** The reference weight for any number of unpacked rows *)

Lemma index_row_in_group (g n rows i : nat) (t : tensor) :
  (0 < g)%nat -> has_shape rows n t = true -> (i / g < rows)%nat ->
  index_row (repeat_interleave g t) i = ret (nth (i / g) t []) /\
  length (nth (i / g) t []) = n.
Proof.
  intros Hg Ht Hi. unfold index_row.
  rewrite nth_error_repeat_interleave by exact Hg. split.
  - rewrite (nth_error_nth' t []) by (rewrite (has_shape_length _ _ _ Ht); exact Hi).
    reflexivity.
  - apply (has_shape_nth _ _ _ _ Ht Hi).
Qed.

Lemma ref_th_weight_value_rows (k n g rows : nat) (q scale zero : tensor) (hz u : bool) :
  (0 < g)%nat ->
  has_shape k n q = true ->
  has_shape rows n scale = true ->
  (hz = true -> has_shape rows n zero = true) ->
  (k / g < rows)%nat ->
  ref_th_weight_of q scale zero g hz u =
    ret (map (dequant_row u hz (nth (k / g) scale []) (nth (k / g) zero [])) q) /\
  has_shape k n
    (map (dequant_row u hz (nth (k / g) scale []) (nth (k / g) zero [])) q) = true.
Proof.
  intros Hg Hq Hs Hz Hlt.
  destruct (index_row_in_group g n rows k scale Hg Hs Hlt) as [Es Ls].
  assert (Lz : hz = true -> length (nth (k / g) zero []) = n).
  { intros E. apply (index_row_in_group g n rows k zero Hg (Hz E) Hlt). }
  pose proof (has_shape_rows _ _ _ Hq) as Hrows.
  split.
  - unfold ref_th_weight_of. rewrite (has_shape_length _ _ _ Hq), Es. simpl bind.
    set (sref := nth (k / g) scale []) in *.
    rewrite (btensor_row Qcmult (fun row => map2 Qcmult row sref)).
    2:{ eapply Forall_impl; [| exact Hrows]. intros row Hr. apply bvec_same. congruence. }
    simpl bind.
    rewrite (btensor_row Qcminus
               (fun row => map2 Qcminus row (vscale (b2Qc u * Z2Qc 8) sref))).
    2:{ apply Forall_map. eapply Forall_impl; [| exact Hrows]. intros row Hr.
        apply bvec_same. rewrite map2_length, vscale_length; congruence. }
    simpl bind. rewrite map_map.
    destruct hz; [| reflexivity].
    destruct (index_row_in_group g n rows k zero Hg (Hz eq_refl) Hlt) as [Ez _].
    rewrite Ez. simpl bind.
    set (zref := nth (k / g) zero []) in *.
    assert (Hlen : Forall (fun row => length (map2 Qcminus (map2 Qcmult row sref)
                       (vscale (b2Qc u * Z2Qc 8) sref)) = n) q).
    { eapply Forall_impl; [| exact Hrows]. intros row Hr.
      rewrite map2_length; rewrite map2_length by congruence;
        [congruence | rewrite vscale_length; congruence]. }
    rewrite (inplace_row Qcplus (fun row => map2 Qcplus row zref)).
    + rewrite map_map. reflexivity.
    + apply Forall_map. eapply Forall_impl; [| exact Hlen]. intros row Hr.
      apply bvec_same. rewrite (Lz eq_refl). exact Hr.
    + apply Forall_map. eapply Forall_impl; [| exact Hlen]. intros row Hr.
      apply map2_length. rewrite (Lz eq_refl). exact Hr.
  - apply (has_shape_map_rows _ k n q Hq). intros row Hr.
    apply dequant_row_length; auto.
Qed.

(** One entry of a dequantized row. *)
Lemma dequant_row_nth (u hz : bool) (sref zref row : vec) (n c : nat) :
  length row = n -> length sref = n -> (hz = true -> length zref = n) ->
  (c < n)%nat ->
  nth c (dequant_row u hz sref zref row) 0 =
    nth c row 0 * nth c sref 0 - b2Qc u * Z2Qc 8 * nth c sref 0
    + (if hz then nth c zref 0 else 0).
Proof.
  intros Lr Ls Lz Hc. unfold dequant_row.
  assert (Hw : nth c (map2 Qcminus (map2 Qcmult row sref)
                       (vscale (b2Qc u * Z2Qc 8) sref)) 0
               = nth c row 0 * nth c sref 0 - b2Qc u * Z2Qc 8 * nth c sref 0).
  { rewrite nth_map2.
    - rewrite nth_map2 by lia. f_equal. unfold vscale.
      rewrite (nth_indep _ 0 ((b2Qc u * Z2Qc 8) * 0)) by (rewrite length_map; lia).
      rewrite (map_nth (Qcmult (b2Qc u * Z2Qc 8))). reflexivity.
    - rewrite map2_length; lia.
    - rewrite vscale_length; lia. }
  destruct hz.
  - rewrite nth_map2.
    + rewrite Hw. reflexivity.
    + rewrite map2_length; rewrite map2_length; try rewrite vscale_length; lia.
    + rewrite (Lz eq_refl). lia.
  - rewrite Hw. ring.
Qed.

Lemma map2_plus_zeros (n : nat) (w : vec) :
  length w = n -> map2 Qcplus w (repeat 0 n) = w.
Proof.
  revert w. induction n as [| n IH]; intros [| x w] H; simpl in H; try discriminate.
  - reflexivity.
  - unfold map2 in *. cbn [repeat combine map fst snd]. rewrite IH by lia.
    f_equal. ring.
Qed.


(** ** The test tables *)

Lemma admissible_spec (c : case) :
  admissible c = true ->
  (0 < c_group_size c)%nat /\ (0 < c_k c)%nat /\ (c_k c mod 8 = 0)%nat.
Proof.
  unfold admissible. rewrite !andb_true_iff, !Nat.ltb_lt, Nat.eqb_eq. tauto.
Qed.

Lemma marker_scale_shape (rows n mark : nat) :
  has_shape rows n (marker_scale rows n mark) = true.
Proof.
  apply has_shape_spec. unfold marker_scale. split.
  - rewrite length_map, length_seq. reflexivity.
  - apply Forall_map, Forall_forall. intros i _. apply repeat_length.
Qed.

Lemma marker_scale_entry (rows n mark i c : nat) :
  (i < rows)%nat -> (c < n)%nat ->
  entry (marker_scale rows n mark) i c = (if (i =? mark)%nat then 1 else 0).
Proof.
  intros Hi Hc. unfold entry, marker_scale.
  rewrite (nth_indep _ [] (repeat (if (0 =? mark)%nat then 1 else 0) n))
    by (rewrite length_map, length_seq; exact Hi).
  rewrite (map_nth (fun i0 => repeat (if (i0 =? mark)%nat then 1 else 0) n)).
  rewrite seq_nth by exact Hi. cbn [Nat.add].
  apply nth_repeat_lt. exact Hc.
Qed.

(** ** Engine names *)

Lemma string_length_append (a b : String.string) :
  String.length (String.append a b) = (String.length a + String.length b)%nat.
Proof.
  induction a as [| c a IH]; [reflexivity |].
  cbn [String.append String.length]. rewrite IH. reflexivity.
Qed.

Lemma string_append_cancel_r (a b s : String.string) :
  String.append a s = String.append b s -> a = b.
Proof.
  revert b. induction a as [| c a IH]; intros [| c' b] H.
  - reflexivity.
  - exfalso. apply (f_equal String.length) in H. cbn [String.append] in H.
    cbn [String.length] in H. rewrite string_length_append in H. lia.
  - exfalso. apply (f_equal String.length) in H. cbn [String.append] in H.
    cbn [String.length] in H. rewrite string_length_append in H. lia.
  - cbn [String.append] in H. injection H as -> H. f_equal. apply IH, H.
Qed.

Lemma to_int_not_nil (z : Z) :
  Z.to_int z <> Decimal.Pos Decimal.Nil /\ Z.to_int z <> Decimal.Neg Decimal.Nil.
Proof.
  destruct z as [| p | p]; cbn [Z.to_int]; split; try discriminate;
    intros H; injection H as H; exact (DecimalPos.Unsigned.to_uint_nonnil p H).
Qed.

Lemma decimal_of_int_inj (z z' : Z) :
  DecimalString.NilZero.string_of_int (Z.to_int z) =
  DecimalString.NilZero.string_of_int (Z.to_int z') -> z = z'.
Proof.
  intros H. apply DecimalZ.to_int_inj.
  destruct (to_int_not_nil z) as [P N]. destruct (to_int_not_nil z') as [P' N'].
  pose proof (DecimalString.NilZero.isi (Z.to_int z) P N) as E.
  pose proof (DecimalString.NilZero.isi (Z.to_int z') P' N') as E'.
  rewrite H in E. rewrite E in E'. injection E' as E'. exact E'.
Qed.

(** ** The activation path for any two products *)

Lemma ref_activation_with_exact (m : nat) (w4 hpq : bool) (act : tensor)
    (alpha : vec) (pqs : tensor) :
  ref_activation_of m w4 hpq act alpha pqs =
  ref_activation_with Qcmult Qcmult m w4 hpq act alpha pqs.
Proof. reflexivity. Qed.

Lemma ref_activation_with_value (fa fs : Qc -> Qc -> Qc) (m k : nat)
    (w4 hpq : bool) (act : tensor) (alpha : vec) (pqs : tensor) :
  has_shape m k act = true -> has_shape 1 k pqs = true ->
  (w4 = true -> length alpha = 1%nat) ->
  ref_activation_with fa fs m w4 hpq act alpha pqs =
    ret (let a1 := if w4 then map (map (fun x => fa x (hd 0 alpha))) act else act in
         if hpq then map (fun row => map2 fs row (hd [] pqs)) a1 else a1).
Proof.
  intros Ha Hp Hal. unfold ref_activation_with.
  assert (Ha1 : has_shape m k
            (if w4 then map (map (fun x => fa x (hd 0 alpha))) act else act) = true).
  { destruct w4; [| exact Ha]. apply (has_shape_map_rows _ m k act Ha).
    intros row Hrow. rewrite length_map. exact Hrow. }
  assert (E1 : (if w4 then inplace fa act (as_row alpha) else ret act) =
               ret (if w4 then map (map (fun x => fa x (hd 0 alpha))) act else act)).
  { destruct w4; [| reflexivity].
    destruct alpha as [| y [| y' al]]; try (specialize (Hal eq_refl); discriminate).
    apply inplace_scalar. }
  rewrite E1. simpl bind. cbv zeta.
  destruct hpq; [| reflexivity].
  apply (btensor_tiled fs m k _ pqs Ha1 Hp).
Qed.

Lemma entry_row_op (f : Qc -> Qc -> Qc) (p : vec) (t : tensor) (r c i j : nat) :
  has_shape r c t = true -> length p = c -> (i < r)%nat -> (j < c)%nat ->
  entry (map (fun row => map2 f row p) t) i j = f (entry t i j) (nth j p 0).
Proof.
  intros Ht Hp Hi Hj.
  rewrite entry_map_row by (rewrite (has_shape_length _ _ _ Ht); exact Hi).
  apply nth_map2; [rewrite (has_shape_nth _ _ _ _ Ht Hi); exact Hj | lia].
Qed.


(** ** Theorems: the reference of the groupwise quantized matmul *)

Lemma Qc_neq_by_bool (a b : Qc) : Qc_eq_bool a b = false -> a <> b.
Proof.
  intros H E. subst b. unfold Qc_eq_bool in H.
  destruct (Qc_eq_dec a a) as [_ | N]; [discriminate H | apply N; reflexivity].
Qed.

(** C1: on eight unpacked rows of one column (all 1), group size 4 and the
    scale rows 1, 2, 3, the reference weight of row 0 is [1 * Scale[8 // 4]]
    = 3, while the specification's [unpacked[0,0] * Scale[0 // 4, 0]] is 1:
    line 167 indexes the repeated scale with the row count [input_rows], so
    every row gets the scale of group [k // group_size]. *)
Theorem ref_th_weight_uses_group_of_row_count :
  exists w,
    ref_th_weight_of ones_8x1 scale_123 torch_Tensor 4 false false = ret w /\
    entry w 0 0 = Z2Qc 3 /\
    dequant_spec ones_8x1 scale_123 torch_Tensor 4 false false 0 0 = Z2Qc 1 /\
    entry w 0 0 <> dequant_spec ones_8x1 scale_123 torch_Tensor 4 false false 0 0.
Proof.
  eexists. split; [vm_compute; reflexivity |].
  split; [apply Qc_is_canon; vm_compute; reflexivity |].
  split; [apply Qc_is_canon; vm_compute; reflexivity |].
  apply Qc_neq_by_bool. vm_compute. reflexivity.
Qed.

Section Claims.

Variable rng : Type.
Variable manual_seed : nat -> rng.
Variable woq_gen_weights : nat -> nat -> dtype_name -> rng -> tensor * rng.
Variable randint : nat -> nat -> rng -> packed * rng.
Variable randn : rng -> Qc * rng.
Variable woq_groupwise_extract_int4 : packed -> bool -> tensor.

Hypothesis gen_shape :
  forall r c d s, has_shape r c (fst (woq_gen_weights r c d s)) = true.
Hypothesis randint_shape :
  forall r c s, packed_has_shape r c (fst (randint r c s)) = true.
Hypothesis extract_shape :
  forall p u r c, packed_has_shape r c p = true ->
    has_shape (8 * r) c (woq_groupwise_extract_int4 p u) = true.

Local Abbreviation run :=
  (_woq_groupwise_matmul rng manual_seed woq_gen_weights randint randn
     woq_groupwise_extract_int4).

Local Abbreviation run_facts :=
  (reference_run rng manual_seed woq_gen_weights randint randn
     woq_groupwise_extract_int4 gen_shape randint_shape extract_shape).

(** C2: whatever the data sources draw for the weight, the scale, the zero,
    alpha and the pre-quant scale, the run overwrites the activation with
    zeros and the bias with ones, and the reference output is the all-ones
    [m x n] matrix when [has_bias] holds and the all-zero one otherwise. *)
Theorem reference_output_is_ones_or_zeros (m n k : nat) (dtype : dtype_name)
    (has_pre_quant has_zero has_bias : bool) (group_size : nat)
    (uint4_input use_w4a8_awq : bool) :
  (0 < group_size)%nat -> (0 < k)%nat -> (k mod 8 = 0)%nat ->
  exists L,
    run m n k dtype has_pre_quant has_zero has_bias group_size uint4_input
      use_w4a8_awq = ret L /\
    l_activation L = repeat (repeat 0 k) m /\
    l_bias L = (if has_bias then [repeat 1 n] else torch_Tensor) /\
    l_ref L = (if has_bias then repeat (repeat 1 n) m else repeat (repeat 0 n) m).
Proof.
  intros Hg Hk Hk8.
  destruct (run_facts m n k dtype has_pre_quant has_zero has_bias group_size
              uint4_input use_w4a8_awq Hg Hk Hk8)
    as (L & E & Href & Hact & Hbias & _).
  exists L. repeat split; try assumption.
  rewrite Href. destruct has_bias; reflexivity.
Qed.

(** C3 (amended): the scale tensor has [(k + group_size) // group_size] rows
    and [n] columns, which is one more than [k // group_size]: it is
    [ceil(k / group_size)] when [group_size] does not divide [k] and
    [ceil(k / group_size) + 1] when it does; the zero tensor, when present,
    has the shape of the scale. *)
Theorem scale_and_zero_rows (m n k : nat) (dtype : dtype_name)
    (has_pre_quant has_zero has_bias : bool) (group_size : nat)
    (uint4_input use_w4a8_awq : bool) :
  (0 < group_size)%nat -> (0 < k)%nat -> (k mod 8 = 0)%nat ->
  exists L,
    run m n k dtype has_pre_quant has_zero has_bias group_size uint4_input
      use_w4a8_awq = ret L /\
    has_shape ((k + group_size) / group_size) n (l_scale L) = true /\
    (has_zero = true ->
       has_shape ((k + group_size) / group_size) n (l_zero L) = true /\
       length (l_zero L) = length (l_scale L)) /\
    length (l_scale L) = S (k / group_size) /\
    length (l_scale L) =
      (ceil_div k group_size + (if (k mod group_size =? 0)%nat then 1 else 0))%nat.
Proof.
  intros Hg Hk Hk8.
  destruct (run_facts m n k dtype has_pre_quant has_zero has_bias group_size
              uint4_input use_w4a8_awq Hg Hk Hk8)
    as (L & E & _ & _ & _ & _ & Hs & Hz & _).
  exists L. split; [exact E |]. split; [exact Hs |].
  pose proof (has_shape_length _ _ _ Hs) as Ls.
  split; [| split].
  - intros Ez. rewrite Ez in Hz. split; [exact Hz |].
    rewrite (has_shape_length _ _ _ Hz), Ls. reflexivity.
  - rewrite Ls. apply scale_rows_succ, Hg.
  - rewrite Ls, (scale_rows_succ k group_size Hg). unfold ceil_div.
    pose proof (Nat.div_mod_eq k group_size) as Ek.
    pose proof (Nat.mod_upper_bound k group_size ltac:(lia)) as Hm.
    destruct (k mod group_size =? 0)%nat eqn:Em.
    + apply Nat.eqb_eq in Em.
      rewrite <- (Nat.div_unique (k + group_size - 1) group_size
                    (k / group_size) (group_size - 1)); [lia | lia | nia].
    + apply Nat.eqb_neq in Em.
      rewrite <- (Nat.div_unique (k + group_size - 1) group_size
                    (S (k / group_size)) (k mod group_size - 1)); [lia | lia | nia].
Qed.

(** C7: Scenario 1 ([m = 1], [n = 1024], [k = 64], [group_size = 64], a bias
    present): the activation is all-zero, the bias is the all-ones row, and
    the reference output has shape [(1, 1024)] and is exactly the bias row,
    for every draw of the weight, scale and zero. *)
Theorem scenario_1_output_is_bias_row (dtype : dtype_name)
    (has_pre_quant has_zero uint4_input use_w4a8_awq : bool) :
  exists L,
    run 1 1024 64 dtype has_pre_quant has_zero true 64 uint4_input
      use_w4a8_awq = ret L /\
    l_activation L = [repeat 0 64] /\
    l_bias L = [repeat 1 1024] /\
    has_shape 1 1024 (l_ref L) = true /\
    l_ref L = l_bias L.
Proof.
  destruct (run_facts 1 1024 64 dtype has_pre_quant has_zero true 64
              uint4_input use_w4a8_awq)
    as (L & E & Href & Hact & Hbias & _); [lia | lia | reflexivity |].
  exists L. split; [exact E |]. split; [exact Hact |]. split; [exact Hbias |].
  rewrite Href, Hbias. split; [| reflexivity].
  apply (has_shape_repeat 1 1024 1).
Qed.

(** C4 (amended): the BIAS, ZERO and W4A8_AWQ flags are set exactly when the
    bias, the zero and alpha hold an element; the PRE_QUANT_SCALE flag
    follows [has_pre_quant] alone, while the pre-quant scale is generated
    with its [k] elements in every run; the run checks no flag against a
    tensor and returns its result for every flag combination. *)
Theorem flags_follow_the_booleans (m n k : nat) (dtype : dtype_name)
    (has_pre_quant has_zero has_bias : bool) (group_size : nat)
    (uint4_input use_w4a8_awq : bool) :
  (0 < group_size)%nat -> (0 < k)%nat -> (k mod 8 = 0)%nat -> (0 < n)%nat ->
  exists L,
    run m n k dtype has_pre_quant has_zero has_bias group_size uint4_input
      use_w4a8_awq = ret L /\
    (flag_set (l_quant_algo L) BIAS = true <-> numel (l_bias L) <> 0%nat) /\
    (flag_set (l_quant_algo L) ZERO = true <-> numel (l_zero L) <> 0%nat) /\
    (flag_set (l_quant_algo L) W4A8_AWQ = true <->
       length (l_fp8_alpha L) <> 0%nat) /\
    flag_set (l_quant_algo L) PRE_QUANT_SCALE = has_pre_quant /\
    numel (l_pre_quant_scale L) = k.
Proof.
  intros Hg Hk Hk8 Hn.
  destruct (run_facts m n k dtype has_pre_quant has_zero has_bias group_size
              uint4_input use_w4a8_awq Hg Hk Hk8)
    as (L & E & _ & _ & Hb & Hp & Hs & Hz & Ha & Hq & _).
  destruct (flag_set_quant_algo use_w4a8_awq has_pre_quant has_zero has_bias)
    as (Fb & Fz & Fp & Fw).
  exists L. split; [exact E |]. rewrite Hq, Fb, Fz, Fp, Fw, Hb, Ha.
  repeat split.
  - intros Eb. rewrite Eb.
    rewrite (numel_shape 1 n _ (has_shape_repeat 1 n 1)). lia.
  - destruct has_bias; [reflexivity | intros N; exfalso; apply N; reflexivity].
  - intros Ez. rewrite Ez in Hz. rewrite (numel_shape _ _ _ Hz).
    rewrite (scale_rows_succ k group_size Hg). lia.
  - destruct has_zero; [reflexivity |].
    rewrite Hz. intros N; exfalso; apply N; reflexivity.
  - intros Ew. rewrite Ew. discriminate.
  - destruct use_w4a8_awq; [reflexivity | intros N; exfalso; apply N; reflexivity].
  - rewrite (numel_shape 1 k _ Hp). lia.
Qed.

End Claims.

(** C5: with the W4A8_AWQ flag set the whole activation is multiplied by
    alpha first, and the pre-quant scale multiplies the scaled activation:
    entry [(i, j)] is [(act[i,j] * alpha) * s[j]], whatever the two products
    are (rounded products included, which do not commute), and the run is
    the rest of the path on the alpha-scaled activation.  With the flag unset
    alpha is not read, whatever its value, and the result is that of the
    unscaled activation. *)
Theorem alpha_is_applied_before_pre_quant_scale
    (mul_alpha mul_scale : Qc -> Qc -> Qc) (m k : nat) (act pqs : tensor)
    (has_pre_quant : bool) (a : Qc) (alpha : vec) :
  has_shape m k act = true -> has_shape 1 k pqs = true ->
  ref_activation_with mul_alpha mul_scale m true has_pre_quant act [a] pqs =
    ref_activation_with mul_alpha mul_scale m false has_pre_quant
      (map (map (fun x => mul_alpha x a)) act) alpha pqs /\
  (exists out,
     ref_activation_with mul_alpha mul_scale m true has_pre_quant act [a] pqs
       = ret out /\
     has_shape m k out = true /\
     forall i j, (i < m)%nat -> (j < k)%nat ->
       entry out i j =
         if has_pre_quant
         then mul_scale (mul_alpha (entry act i j) a) (entry pqs 0 j)
         else mul_alpha (entry act i j) a) /\
  ref_activation_with mul_alpha mul_scale m false has_pre_quant act alpha pqs =
    ref_activation_with mul_alpha mul_scale m false has_pre_quant act [] pqs /\
  (exists out0,
     ref_activation_with mul_alpha mul_scale m false has_pre_quant act alpha pqs
       = ret out0 /\
     forall i j, (i < m)%nat -> (j < k)%nat ->
       entry out0 i j =
         if has_pre_quant then mul_scale (entry act i j) (entry pqs 0 j)
         else entry act i j) /\
  ref_activation_of m true has_pre_quant act [a] pqs =
    ref_activation_with Qcmult Qcmult m true has_pre_quant act [a] pqs.
Proof.
  intros Ha Hp.
  destruct (shape_one_row k pqs Hp) as [Ep Lp].
  assert (Hsc : has_shape m k (map (map (fun x => mul_alpha x a)) act) = true).
  { apply (has_shape_map_rows _ m k act Ha). intros row Hr.
    rewrite length_map. exact Hr. }
  assert (Hno : forall al : vec, false = true -> length al = 1%nat)
    by (intros al N; discriminate N).
  rewrite (ref_activation_with_value mul_alpha mul_scale m k true has_pre_quant
             act [a] pqs Ha Hp (fun _ => eq_refl)).
  rewrite (ref_activation_with_value mul_alpha mul_scale m k false has_pre_quant
             _ alpha pqs Hsc Hp (Hno alpha)).
  rewrite (ref_activation_with_value mul_alpha mul_scale m k false has_pre_quant
             act alpha pqs Ha Hp (Hno alpha)).
  rewrite (ref_activation_with_value mul_alpha mul_scale m k false has_pre_quant
             act [] pqs Ha Hp (Hno [])).
  cbv zeta. cbn [hd].
  split; [reflexivity |].
  split; [| split; [reflexivity | split; [| apply ref_activation_with_exact]]].
  - eexists. split; [reflexivity |]. split.
    + destruct has_pre_quant; [| exact Hsc].
      apply (has_shape_map_rows _ m k _ Hsc). intros row Hr.
      rewrite map2_length; congruence.
    + intros i j Hi Hj. destruct has_pre_quant.
      * rewrite (entry_row_op mul_scale (hd [] pqs) _ m k i j Hsc Lp Hi Hj).
        rewrite (entry_map_map _ act m k i j Ha Hi Hj).
        rewrite (entry_single_row k pqs j Hp). reflexivity.
      * rewrite (entry_map_map (fun x => mul_alpha x a) act m k i j Ha Hi Hj).
        reflexivity.
  - eexists. split; [reflexivity |].
    intros i j Hi Hj. destruct has_pre_quant; [| reflexivity].
    rewrite (entry_row_op mul_scale (hd [] pqs) _ m k i j Ha Lp Hi Hj).
    rewrite (entry_single_row k pqs j Hp). reflexivity.
Qed.

(** C6: the reference output is [sum_r Activation'[i,r] * DequantWeight[r,j]
    + Bias[j]], with nothing added when the bias is absent; the product with
    a bias is the product without it plus the bias row broadcast over the
    [m] rows. *)
Theorem reference_matmul_adds_bias (m k n : nat) (a w bias : tensor) :
  has_shape m k a = true -> has_shape k n w = true ->
  has_shape 1 n bias = true -> (0 < k)%nat -> (0 < n)%nat ->
  exists out out0,
    woq_groupwise_gt_matmul a w bias = ret out /\
    woq_groupwise_gt_matmul a w torch_Tensor = ret out0 /\
    inplace Qcplus out0 bias = ret out /\
    has_shape m n out = true /\
    forall i j, (i < m)%nat -> (j < n)%nat ->
      entry out0 i j = sumr k (fun r => entry a i r * entry w r j) /\
      entry out i j =
        sumr k (fun r => entry a i r * entry w r j) + entry bias 0 j /\
      entry out i j = entry out0 i j + entry bias 0 j.
Proof.
  intros Ha Hw Hb Hk Hn.
  destruct (matmul_entry m k n a w Ha Hw Hk) as (out0 & E0 & S0 & Hent).
  destruct (shape_one_row n bias Hb) as [Eb Lb].
  pose proof (add_bias_value m n out0 bias S0 Hb) as Eadd.
  exists (map (fun row => map2 Qcplus row (hd [] bias)) out0), out0.
  unfold woq_groupwise_gt_matmul. rewrite E0. simpl bind.
  rewrite (numel_one_row n bias Hb).
  replace (n =? 0)%nat with false by (symmetry; apply Nat.eqb_neq; lia).
  split; [exact Eadd |]. split; [reflexivity |]. split; [exact Eadd |].
  split.
  - apply (has_shape_map_rows _ m n out0 S0). intros row Hr.
    rewrite map2_length; congruence.
  - intros i j Hi Hj.
    assert (Eij : entry (map (fun row => map2 Qcplus row (hd [] bias)) out0) i j
                  = entry out0 i j + entry bias 0 j).
    { rewrite entry_map_row by (rewrite (has_shape_length _ _ _ S0); exact Hi).
      rewrite (entry_single_row n bias j Hb).
      apply nth_map2; [rewrite (has_shape_nth _ _ _ _ S0 Hi); exact Hj | lia]. }
    split; [apply Hent; assumption |].
    split; [rewrite Eij, (Hent i j Hi Hj); reflexivity | exact Eij].
Qed.


(** C8: on eight unpacked rows and group size 8 the scale has two rows;
    group 0 holds all the weight rows 0..7 and group 1 starts at row 8,
    past the last weight row.  Two scales that agree on group 0 and differ
    on group 1 give different reference weights: the row read at line 167
    is the allocated row beyond [k], so that row is used, and it is the
    only one used. *)
Theorem excess_group_row_is_read :
  exists wA wB,
    ref_th_weight_of ones_8x1 scale_15 torch_Tensor 8 false false = ret wA /\
    ref_th_weight_of ones_8x1 scale_17 torch_Tensor 8 false false = ret wB /\
    length scale_15 = ((8 + 8) / 8)%nat /\
    nth 0 scale_15 [] = nth 0 scale_17 [] /\
    (forall r, (r < 8)%nat -> (r / 8 = 0)%nat) /\
    entry wA 0 0 = Z2Qc 5 /\ entry wB 0 0 = Z2Qc 7 /\
    entry wA 0 0 <> entry wB 0 0.
Proof.
  eexists. eexists.
  split; [vm_compute; reflexivity |].
  split; [vm_compute; reflexivity |].
  split; [reflexivity |]. split; [reflexivity |].
  split; [intros r Hr; apply Nat.div_small; exact Hr |].
  split; [apply Qc_is_canon; vm_compute; reflexivity |].
  split; [apply Qc_is_canon; vm_compute; reflexivity |].
  apply Qc_neq_by_bool. vm_compute. reflexivity.
Qed.

(** ** Concrete runs *)

(** C2 at the second row of the table of [test_matmul_int4_input]. *)
Lemma reference_output_is_ones_or_zeros_run :
  exists L,
    sample_run 16 1024 256 float16 false true false 64 true false = ret L /\
    l_activation L = repeat (repeat 0 256) 16 /\
    l_bias L = torch_Tensor /\
    l_ref L = repeat (repeat 0 1024) 16.
Proof.
  exact (reference_output_is_ones_or_zeros nat sample_seed sample_gen
           sample_randint sample_randn sample_extract sample_gen_shape
           sample_randint_shape sample_extract_shape
           16 1024 256 float16 false true false 64 true false
           ltac:(lia) ltac:(lia) eq_refl).
Defined.

(** C3 at the third row of [test_hopper_fp16_int4_flexible_groups], where
    the group size 192 does not divide [k = 256]. *)
Lemma scale_and_zero_rows_run :
  exists L,
    sample_run 32 1024 256 float16 true true false 192 false false = ret L /\
    has_shape ((256 + 192) / 192) 1024 (l_scale L) = true.
Proof.
  destruct (scale_and_zero_rows nat sample_seed sample_gen
              sample_randint sample_randn sample_extract sample_gen_shape
              sample_randint_shape sample_extract_shape
              32 1024 256 float16 true true false 192 false false
              ltac:(lia) ltac:(lia) eq_refl) as (L & E & S & _).
  exists L. split; [exact E | exact S].
Defined.

(** C3, as stated, fails at the first row of [test_matmul_int4_input]: the
    scale has 2 rows, and [ceil(64 / 64)] is 1. *)
Lemma scale_rows_exceed_ceil :
  exists L,
    sample_run 1 1024 64 float16 false true true 64 true false = ret L /\
    length (l_scale L) = 2%nat /\
    ceil_div 64 64 = 1%nat /\
    length (l_scale L) <> ceil_div 64 64.
Proof.
  destruct (reference_run nat sample_seed sample_gen sample_randint
              sample_randn sample_extract sample_gen_shape
              sample_randint_shape sample_extract_shape
              1 1024 64 float16 false true true 64 true false
              ltac:(lia) ltac:(lia) eq_refl)
    as (L & E & _ & _ & _ & _ & Hs & _).
  exists L. split; [exact E |].
  pose proof (has_shape_length _ _ _ Hs) as Ls.
  change ((64 + 64) / 64)%nat with 2%nat in Ls.
  change (ceil_div 64 64) with 1%nat.
  rewrite Ls. repeat split. discriminate.
Qed.

(** C4 at the first row of [test_prequant_matmul_int4_input]. *)
Lemma flags_follow_the_booleans_run :
  exists L,
    sample_run 1 1024 64 float16 true true true 64 true false = ret L /\
    flag_set (l_quant_algo L) PRE_QUANT_SCALE = true /\
    numel (l_pre_quant_scale L) = 64%nat.
Proof.
  destruct (flags_follow_the_booleans nat sample_seed sample_gen
              sample_randint sample_randn sample_extract sample_gen_shape
              sample_randint_shape sample_extract_shape
              1 1024 64 float16 true true true 64 true false
              ltac:(lia) ltac:(lia) eq_refl ltac:(lia))
    as (L & E & _ & _ & _ & Fp & Np).
  exists L. split; [exact E |]. split; [exact Fp | exact Np].
Defined.

(** C4, as stated, fails at the first row of [test_matmul_int4_input]: the
    PRE_QUANT_SCALE flag is unset, the pre-quant scale holds 64 elements,
    and the run returns its result without an error. *)
Lemma unflagged_pre_quant_scale_is_accepted :
  exists L,
    sample_run 1 1024 64 float16 false true true 64 true false = ret L /\
    flag_set (l_quant_algo L) PRE_QUANT_SCALE = false /\
    numel (l_pre_quant_scale L) = 64%nat /\
    ~ flags_match_tensors L.
Proof.
  destruct (reference_run nat sample_seed sample_gen sample_randint
              sample_randn sample_extract sample_gen_shape
              sample_randint_shape sample_extract_shape
              1 1024 64 float16 false true true 64 true false
              ltac:(lia) ltac:(lia) eq_refl)
    as (L & E & _ & _ & _ & Hp & _ & _ & _ & Hq & _).
  exists L. split; [exact E |].
  assert (Fp : flag_set (l_quant_algo L) PRE_QUANT_SCALE = false)
    by (rewrite Hq; reflexivity).
  assert (Np : numel (l_pre_quant_scale L) = 64%nat)
    by (rewrite (numel_shape 1 64 _ Hp); reflexivity).
  split; [exact Fp |]. split; [exact Np |].
  intros (_ & _ & [_ Hback] & _).
  rewrite Fp, Np in Hback.
  assert (N : false = true) by (apply Hback; discriminate).
  discriminate N.
Qed.

(** C5 under a product that rounds down to integers, on the activation
    [[3/2]] with alpha [1/2] and the pre-quant scale [[4]]: alpha first gives
    [floor(floor(3/4) * 4) = 0]. *)
Lemma alpha_is_applied_before_pre_quant_scale_run :
  exists out,
    ref_activation_with floor_mul floor_mul 1 true true act_3_2 alpha_1_2 pqs_4
      = ret out /\
    entry out 0 0 =
      floor_mul (floor_mul (entry act_3_2 0 0) (Q2Qc (1 # 2))) (entry pqs_4 0 0).
Proof.
  destruct (alpha_is_applied_before_pre_quant_scale floor_mul floor_mul 1 1
              act_3_2 pqs_4 true (Q2Qc (1 # 2)) [] eq_refl eq_refl)
    as (_ & (out & E & _ & Hent) & _).
  exists out. split; [exact E |].
  exact (Hent 0%nat 0%nat ltac:(lia) ltac:(lia)).
Defined.

(** Under that product the order shows: alpha first ends in 0, the pre-quant
    scale first would end in [floor(floor(3/2 * 4) * 1/2) = 3]. *)
Lemma scaling_order_shows_under_rounding :
  exists out swapped,
    ref_activation_with floor_mul floor_mul 1 true true act_3_2 alpha_1_2 pqs_4
      = ret out /\
    (b <- ref_activation_with floor_mul floor_mul 1 false true act_3_2 [] pqs_4 ;;
     ref_activation_with floor_mul floor_mul 1 true false b alpha_1_2 pqs_4)
      = ret swapped /\
    entry out 0 0 = Z2Qc 0 /\ entry swapped 0 0 = Z2Qc 3.
Proof.
  eexists. eexists.
  split; [vm_compute; reflexivity |].
  split; [vm_compute; reflexivity |].
  split; apply Qc_is_canon; vm_compute; reflexivity.
Qed.

(** C6 on a [2 x 3] activation, a [3 x 2] weight and a [1 x 2] bias. *)
Lemma reference_matmul_adds_bias_run :
  exists out,
    woq_groupwise_gt_matmul sample_act sample_weight sample_bias = ret out /\
    has_shape 2 2 out = true.
Proof.
  destruct (reference_matmul_adds_bias 2 3 2 sample_act sample_weight
              sample_bias eq_refl eq_refl eq_refl ltac:(lia) ltac:(lia))
    as (out & out0 & E & _ & _ & S & _).
  exists out. split; [exact E | exact S].
Defined.

(** C7 at the first row of the table of [test_matmul_int4_input]. *)
Lemma scenario_1_output_is_bias_row_run :
  exists L,
    sample_run 1 1024 64 float16 false true true 64 true false = ret L /\
    l_activation L = [repeat 0 64] /\
    l_bias L = [repeat 1 1024] /\
    has_shape 1 1024 (l_ref L) = true /\
    l_ref L = l_bias L.
Proof.
  exact (scenario_1_output_is_bias_row nat sample_seed sample_gen
           sample_randint sample_randn sample_extract sample_gen_shape
           sample_randint_shape sample_extract_shape
           float16 false true true false).
Defined.


(** Where the shapes do agree ([k = n]) the two sides still differ on an
    activation that is not zero: for [A = [[1, 0]]], [s = [[2, 1]]] and
    [W = [[0, 1], [0, 0]]] scaling before the product gives [[0, 2]],
    scaling the product gives [[0, 1]]. *)
Lemma prescale_is_not_postscale :
  exists x y,
    (a' <- ref_activation_of 1 false true act_10 [] pqs_21 ;;
     matmul a' weight_0100) = ret x /\
    (p <- matmul act_10 weight_0100 ;; btensor Qcmult p pqs_21) = ret y /\
    entry x 0 1 = Z2Qc 2 /\ entry y 0 1 = Z2Qc 1 /\
    (a' <- ref_activation_of 1 false true act_10 [] pqs_21 ;;
     matmul a' weight_0100) <>
    (p <- matmul act_10 weight_0100 ;; btensor Qcmult p pqs_21).
Proof.
  eexists. eexists.
  split; [vm_compute; reflexivity |].
  split; [vm_compute; reflexivity |].
  split; [apply Qc_is_canon; vm_compute; reflexivity |].
  split; [apply Qc_is_canon; vm_compute; reflexivity |].
  intros H.
  assert (E : forall t1 t2 : tensor, @inr exn tensor t1 = inr t2 ->
                entry t1 0 1 = entry t2 0 1)
    by (intros t1 t2 H12; injection H12 as ->; reflexivity).
  vm_compute in H. apply E in H. revert H.
  apply Qc_neq_by_bool. vm_compute. reflexivity.
Qed.


(** X1 on eight unpacked rows, group size 4 and three scale rows. *)
Lemma ref_th_weight_entry_run :
  exists w,
    ref_th_weight_of ones_8x1 scale_123 torch_Tensor 4 false false = ret w /\
    has_shape 8 1 w = true /\
    entry w 0 0 =
      entry ones_8x1 0 0 * entry scale_123 (8 / 4) 0
      - b2Qc false * Z2Qc 8 * entry scale_123 (8 / 4) 0 + 0.
Proof.
  exact (ref_th_weight_entry 8 1 4 ones_8x1 scale_123 torch_Tensor false false
           0 0 ltac:(lia) eq_refl eq_refl
           (fun N : false = true => False_ind _ (diff_false_true N))
           ltac:(lia) ltac:(lia)).
Defined.

(** X2 on the same operands. *)
Lemma reference_lookups_in_range_run :
  index_row (repeat_interleave 4 scale_123) 8 = ret (nth (8 / 4) scale_123 []).
Proof.
  exact (proj1 (reference_lookups_in_range 8 1 4 ones_8x1 scale_123
                  torch_Tensor false false ltac:(lia) eq_refl eq_refl
                  (fun N : false = true => False_ind _ (diff_false_true N)))).
Defined.

(** ** Further properties of the reference weight *)

(** X3: a zero tensor that holds only zeros changes nothing: the reference
    weight with [has_zero] and an all-zero zero tensor is the reference
    weight without a zero tensor. *)
Theorem zero_of_zeros_is_neutral (k n g : nat) (q scale : tensor) (u : bool) :
  (0 < g)%nat ->
  has_shape k n q = true ->
  has_shape ((k + g) / g) n scale = true ->
  ref_th_weight_of q scale (repeat (repeat 0 n) ((k + g) / g)) g true u =
  ref_th_weight_of q scale torch_Tensor g false u.
Proof.
  intros Hg Hq Hs.
  assert (Hlt : (k / g < (k + g) / g)%nat)
    by (rewrite (scale_rows_succ k g Hg); lia).
  destruct (ref_th_weight_value_rows k n g _ q scale
              (repeat (repeat 0 n) ((k + g) / g)) true u Hg Hq Hs
              (fun _ => has_shape_repeat _ n 0) Hlt) as [E1 _].
  destruct (ref_th_weight_value_rows k n g _ q scale torch_Tensor false u Hg Hq Hs
              (fun N : false = true => False_ind _ (diff_false_true N)) Hlt)
    as [E2 _].
  rewrite E1, E2. apply f_equal. apply map_ext_in. intros row Hin.
  pose proof (has_shape_rows _ _ _ Hq) as Hrows. rewrite Forall_forall in Hrows.
  destruct (index_row_in_group g n _ k scale Hg Hs Hlt) as [_ Ls].
  rewrite nth_repeat_lt by exact Hlt.
  unfold dequant_row. cbv zeta. apply map2_plus_zeros.
  rewrite map2_length; rewrite map2_length; try rewrite vscale_length;
    rewrite ?(Hrows row Hin); congruence.
Qed.


(** X5: line 156 encodes the four flags without loss: the mask is below 16,
    it is the bitwise or of the flags that are on, and two flag settings with
    the same mask are the same setting. *)
Theorem quant_algo_encodes_flags (w4 hpq hz hb w4' hpq' hz' hb' : bool) :
  (0 <= quant_algo_of w4 hpq hz hb < 16)%Z /\
  quant_algo_of w4 hpq hz hb =
    Z.lor (Z.lor (if w4 then W4A8_AWQ else 0%Z)
                 (if hpq then PRE_QUANT_SCALE else 0%Z))
          (Z.lor (if hz then ZERO else 0%Z) (if hb then BIAS else 0%Z)) /\
  (quant_algo_of w4 hpq hz hb = quant_algo_of w4' hpq' hz' hb' ->
   w4 = w4' /\ hpq = hpq' /\ hz = hz' /\ hb = hb').
Proof.
  split; [| split].
  - destruct w4, hpq, hz, hb; cbv; split; congruence.
  - destruct w4, hpq, hz, hb; reflexivity.
  - intros H.
    destruct (flag_set_quant_algo w4 hpq hz hb) as (Fb & Fz & Fp & Fw).
    destruct (flag_set_quant_algo w4' hpq' hz' hb') as (Fb' & Fz' & Fp' & Fw').
    rewrite H in Fb, Fz, Fp, Fw. repeat split; congruence.
Qed.

(** X6: the two scalings of lines 182-187 commute: alpha first and the
    pre-quant scale second gives the activation that the pre-quant scale
    first and alpha second would give. *)
Theorem alpha_and_pre_quant_scale_commute (m k : nat) (act pqs : tensor) (a : Qc) :
  has_shape m k act = true -> has_shape 1 k pqs = true ->
  ref_activation_of m true true act [a] pqs =
    (b <- ref_activation_of m false true act [] pqs ;;
     ref_activation_of m true false b [a] pqs).
Proof.
  intros Ha Hp.
  destruct (shape_one_row k pqs Hp) as [_ Lp].
  assert (Hno : false = true -> length (@nil Qc) = 1%nat) by (intros N; discriminate N).
  assert (Hb : has_shape m k (map (fun row => map2 Qcmult row (hd [] pqs)) act) = true).
  { apply (has_shape_map_rows _ m k act Ha). intros row Hr.
    rewrite map2_length; congruence. }
  rewrite (ref_activation_value m k true true act [a] pqs Ha Hp (fun _ => eq_refl)).
  rewrite (ref_activation_value m k false true act [] pqs Ha Hp Hno).
  cbv zeta. simpl bind.
  rewrite (ref_activation_value m k true false _ [a] pqs Hb Hp (fun _ => eq_refl)).
  cbv zeta. cbn [hd]. apply f_equal. rewrite !map_map.
  apply map_ext. intros row. unfold map2. rewrite map_map.
  generalize (hd [] pqs). clear.
  induction row as [| x row IH]; intros [| y p]; try reflexivity.
  cbn [map combine fst snd]. rewrite IH. f_equal. ring.
Qed.

(** X7: the reference weight follows the groups of the rows exactly when
    there is a single group.  If [group_size > k], every entry is the
    specification's [unpacked[r,c] * Scale[r // group_size, c]] (less the
    offset, plus the zero); if [group_size <= k], some weights and scales
    give an entry that differs from it. *)
Theorem reference_weight_follows_rows_iff (k n g : nat) :
  (0 < g)%nat -> (0 < k)%nat -> (0 < n)%nat ->
  ((forall (hz u : bool) (q scale zero : tensor) (w : tensor) (r c : nat),
      has_shape k n q = true ->
      has_shape ((k + g) / g) n scale = true ->
      (hz = true -> has_shape ((k + g) / g) n zero = true) ->
      ref_th_weight_of q scale zero g hz u = ret w ->
      (r < k)%nat -> (c < n)%nat ->
      entry w r c = dequant_spec q scale zero g hz u r c)
   <-> (k < g)%nat).
Proof.
  intros Hg Hk Hn.
  assert (Hlt : (k / g < (k + g) / g)%nat)
    by (rewrite (scale_rows_succ k g Hg); lia).
  split.
  - intros Hall. destruct (Nat.lt_ge_cases k g) as [Hkg | Hge]; [exact Hkg |].
    exfalso.
    assert (Hq1 : (1 <= k / g)%nat).
    { apply Nat.div_le_lower_bound; lia. }
    set (q := repeat (repeat 1 n) k).
    set (scale := marker_scale ((k + g) / g) n (k / g)).
    pose proof (has_shape_repeat k n 1) as Sq.
    pose proof (marker_scale_shape ((k + g) / g) n (k / g)) as Ss.
    assert (Hzf : false = true -> has_shape ((k + g) / g) n torch_Tensor = true)
      by (intros N; discriminate N).
    destruct (ref_th_weight_value_rows k n g _ q scale torch_Tensor false false
                Hg Sq Ss Hzf Hlt) as [E Sw].
    specialize (Hall false false q scale torch_Tensor _ 0%nat 0%nat Sq Ss Hzf E Hk Hn).
    rewrite entry_map_row in Hall by (unfold q; rewrite repeat_length; exact Hk).
    destruct (index_row_in_group g n _ k scale Hg Ss Hlt) as [_ Ls].
    rewrite (dequant_row_nth false false _ _ _ n 0) in Hall;
      [| unfold q; rewrite nth_repeat_lt by exact Hk; apply repeat_length
       | exact Ls | intros N; discriminate N | exact Hn].
    unfold dequant_spec in Hall.
    change (nth 0 (nth (k / g) scale []) 0) with (entry scale (k / g) 0) in Hall.
    rewrite (Nat.div_small 0 g) in Hall by lia.
    unfold scale in Hall.
    rewrite !marker_scale_entry in Hall by lia.
    rewrite Nat.eqb_refl in Hall.
    replace (0 =? k / g)%nat with false in Hall
      by (symmetry; apply Nat.eqb_neq; lia).
    assert (Hv : entry q 0 0 = 1).
    { unfold entry, q. rewrite nth_repeat_lt by exact Hk. apply nth_repeat_lt. exact Hn. }
    change (nth 0 (nth 0 q []) 0) with (entry q 0 0) in Hall. rewrite Hv in Hall.
    revert Hall. apply Qc_neq_by_bool. vm_compute. reflexivity.
  - intros Hkg hz u q scale zero w r c Hq Hs Hz E Hr Hc.
    destruct (ref_th_weight_value_rows k n g _ q scale zero hz u Hg Hq Hs Hz Hlt)
      as [E' _].
    rewrite E' in E. injection E as <-.
    rewrite entry_map_row by (rewrite (has_shape_length _ _ _ Hq); exact Hr).
    destruct (index_row_in_group g n _ k scale Hg Hs Hlt) as [_ Ls].
    rewrite (dequant_row_nth u hz _ _ _ n c);
      [| apply (has_shape_nth _ _ _ _ Hq Hr) | exact Ls
       | intros Ez; apply (index_row_in_group g n _ k zero Hg (Hz Ez) Hlt) | exact Hc].
    unfold dequant_spec, entry.
    rewrite (Nat.div_small k g Hkg), (Nat.div_small r g) by lia.
    reflexivity.
Qed.

Lemma matmul_inner_mismatch (m k : nat) (w : tensor) :
  (0 < m)%nat -> length w <> k ->
  matmul (repeat (repeat 0 k) m) w = raise RuntimeError.
Proof.
  intros Hm Hw. unfold matmul. destruct m as [| m]; [lia |].
  cbn [repeat forallb]. rewrite repeat_length.
  replace (k =? length w)%nat with false
    by (symmetry; apply Nat.eqb_neq; congruence).
  reflexivity.
Qed.

Section ExtraRuns.

Variable rng : Type.
Variable manual_seed : nat -> rng.
Variable woq_gen_weights : nat -> nat -> dtype_name -> rng -> tensor * rng.
Variable randint : nat -> nat -> rng -> packed * rng.
Variable randn : rng -> Qc * rng.
Variable woq_groupwise_extract_int4 : packed -> bool -> tensor.

Hypothesis gen_shape :
  forall r c d s, has_shape r c (fst (woq_gen_weights r c d s)) = true.
Hypothesis randint_shape :
  forall r c s, packed_has_shape r c (fst (randint r c s)) = true.
Hypothesis extract_shape :
  forall p u r c, packed_has_shape r c p = true ->
    has_shape (8 * r) c (woq_groupwise_extract_int4 p u) = true.

Local Abbreviation run :=
  (_woq_groupwise_matmul rng manual_seed woq_gen_weights randint randn
     woq_groupwise_extract_int4).

Lemma zero_group_size_raises (m n k : nat) (d : dtype_name) (hpq hz hb : bool)
    (u w4 : bool) :
  run m n k d hpq hz hb 0 u w4 = raise ZeroDivisionError.
Proof.
  unfold _woq_groupwise_matmul.
  destruct (woq_gen_weights m k d (manual_seed 0)) as [act s1].
  destruct (woq_gen_weights 1 k d s1) as [pqs s2].
  destruct (randint (k / 8) n s2) as [qw s3].
  reflexivity.
Qed.

Lemma misaligned_k_raises (m n k : nat) (d : dtype_name) (hpq hz hb : bool)
    (g : nat) (u w4 : bool) :
  (0 < m)%nat -> (0 < g)%nat -> (k mod 8 <> 0)%nat ->
  run m n k d hpq hz hb g u w4 = raise RuntimeError.
Proof.
  intros Hm Hg Hk8. unfold _woq_groupwise_matmul.
  pose proof (gen_shape m k d (manual_seed 0)) as Sa.
  destruct (woq_gen_weights m k d (manual_seed 0)) as [act s1]. simpl in Sa.
  pose proof (gen_shape 1 k d s1) as Sp.
  destruct (woq_gen_weights 1 k d s1) as [pqs s2]. simpl in Sp.
  pose proof (randint_shape (k / 8) n s2) as Sq.
  destruct (randint (k / 8) n s2) as [qw s3]. simpl in Sq.
  replace (g =? 0)%nat with false by (symmetry; apply Nat.eqb_neq; lia).
  pose proof (gen_shape ((k + g) / g) n d s3) as Ss.
  destruct (woq_gen_weights ((k + g) / g) n d s3) as [sc s4]. simpl in Ss.
  apply (has_shape_tscale _ _ (Z2Qc 2)) in Ss.
  set (scale := tscale (Z2Qc 2) sc) in *.
  assert (Hzero : exists zero s5,
    (if hz then let '(z, s') := woq_gen_weights ((k + g) / g) n d s4 in
                (tscale (Z2Qc 2) z, s')
     else (torch_Tensor, s4)) = (zero, s5) /\
    (hz = true -> has_shape ((k + g) / g) n zero = true)).
  { destruct hz.
    - pose proof (gen_shape ((k + g) / g) n d s4) as Sz.
      destruct (woq_gen_weights ((k + g) / g) n d s4) as [z s5]. simpl in Sz.
      exists (tscale (Z2Qc 2) z), s5. split; [reflexivity |].
      intros _. apply has_shape_tscale, Sz.
    - exists torch_Tensor, s4. split; [reflexivity | intros N; discriminate N]. }
  destruct Hzero as (zero & s5 & Ez & Sz). rewrite Ez.
  destruct (if hb then woq_gen_weights 1 n d s5 else (torch_Tensor, s5))
    as [bias s6].
  assert (Halpha : exists alpha s7,
    (if w4 then let '(x, s') := randn s6 in ([x + Q2Qc (1 # 2)], s')
     else ([], s6)) = (alpha, s7) /\
    (w4 = true -> length alpha = 1%nat)).
  { destruct w4.
    - destruct (randn s6) as [x s7]. exists [x + Q2Qc (1 # 2)], s7.
      split; reflexivity.
    - exists [], s6. split; [reflexivity | intros N; discriminate N]. }
  destruct Halpha as (alpha & s7 & Eal & Lal). rewrite Eal.
  pose proof (extract_shape qw u (k / 8) n Sq) as Sqi.
  set (q := woq_groupwise_extract_int4 qw u) in *.
  pose proof (Nat.div_mod_eq k 8) as Ek.
  assert (Hlt : (8 * (k / 8) / g < (k + g) / g)%nat).
  { rewrite (scale_rows_succ k g Hg). apply Nat.lt_succ_r.
    apply Nat.Div0.div_le_mono. lia. }
  destruct (ref_th_weight_value_rows (8 * (k / 8)) n g _ q scale zero hz u
              Hg Sqi Ss Sz Hlt) as [Ew Sw].
  rewrite Ew. simpl bind.
  rewrite (zeros_like_shape m k act Sa).
  rewrite (ref_activation_zero m k w4 hpq alpha pqs Sp Lal). simpl bind.
  unfold woq_groupwise_gt_matmul.
  rewrite matmul_inner_mismatch; [reflexivity | exact Hm |].
  pose proof (has_shape_length _ _ _ Sw) as Lw. intros N.
  pose proof (eq_trans (eq_sym N) Lw) as Ek'. lia.
Qed.

(** X8: for [m > 0] and [k > 0] the reference side of
    [_woq_groupwise_matmul] produces its output exactly when the group size
    is positive and [k] is a multiple of 8.  A group size of 0 raises
    [ZeroDivisionError] at line 141; a [k] that is no multiple of 8 leaves
    [8 * (k // 8)] unpacked rows against [k] activation columns, and the
    product of line 189 raises [RuntimeError]. *)
Theorem reference_completes_iff (m n k : nat) (dtype : dtype_name)
    (has_pre_quant has_zero has_bias : bool) (group_size : nat)
    (uint4_input use_w4a8_awq : bool) :
  (0 < m)%nat -> (0 < k)%nat ->
  ((exists L,
      run m n k dtype has_pre_quant has_zero has_bias group_size uint4_input
        use_w4a8_awq = ret L)
   <-> (0 < group_size)%nat /\ (k mod 8 = 0)%nat) /\
  (group_size = 0%nat ->
   run m n k dtype has_pre_quant has_zero has_bias group_size uint4_input
     use_w4a8_awq = raise ZeroDivisionError) /\
  ((0 < group_size)%nat -> (k mod 8 <> 0)%nat ->
   run m n k dtype has_pre_quant has_zero has_bias group_size uint4_input
     use_w4a8_awq = raise RuntimeError).
Proof.
  intros Hm Hk. split; [| split].
  - split.
    + intros [L E].
      destruct group_size as [| g].
      * rewrite zero_group_size_raises in E. discriminate E.
      * split; [lia |].
        destruct (Nat.eq_dec (k mod 8) 0) as [E8 | N8]; [exact E8 |].
        rewrite (misaligned_k_raises m n k dtype has_pre_quant has_zero has_bias
                   (S g) uint4_input use_w4a8_awq Hm ltac:(lia) N8) in E.
        discriminate E.
    + intros [Hg Hk8].
      destruct (reference_run rng manual_seed woq_gen_weights randint randn
                  woq_groupwise_extract_int4 gen_shape randint_shape extract_shape
                  m n k dtype has_pre_quant has_zero has_bias group_size
                  uint4_input use_w4a8_awq Hg Hk Hk8) as (L & E & _).
      exists L. exact E.
  - intros ->. apply zero_group_size_raises.
  - intros Hg N8. apply misaligned_k_raises; assumption.
Qed.

Variable getSMVersion : nat.

Lemma run_case_completes (c : case) (u w4 : bool) :
  admissible c = true ->
  completed c
    (Ran (run_case rng manual_seed woq_gen_weights randint randn
            woq_groupwise_extract_int4 c u w4)).
Proof.
  intros Hc. destruct (admissible_spec c Hc) as (Hg & Hk & Hk8).
  destruct (reference_run rng manual_seed woq_gen_weights randint randn
              woq_groupwise_extract_int4 gen_shape randint_shape extract_shape
              (c_m c) (c_n c) (c_k c) (c_dtype c) (c_has_pre_quant c)
              (c_has_zero c) (c_has_bias c) (c_group_size c) u w4 Hg Hk Hk8)
    as (L & E & Href & _).
  right. exists L. unfold run_case. rewrite E. split; [reflexivity | exact Href].
Qed.

(** X9: every row of every [parameterized.expand] table is within what the
    reference needs (a positive group size, [k] a positive multiple of 8):
    on any GPU generation each of the five test methods is either skipped
    or runs the reference without an exception, to the all-ones output when
    the row has a bias and the all-zero output when it has none. *)
Theorem every_case_runs_the_reference :
  (forall c, In c cases_matmul_int4_input ->
     completed c
       (test_matmul_int4_input rng manual_seed woq_gen_weights randint randn
          woq_groupwise_extract_int4 getSMVersion c)) /\
  (forall c, In c cases_prequant_matmul_int4_input ->
     completed c
       (test_prequant_matmul_int4_input rng manual_seed woq_gen_weights randint
          randn woq_groupwise_extract_int4 getSMVersion c)) /\
  (forall cu, In cu cases_prequant_matmul_fp8_int4_input_hopper ->
     completed (fst cu)
       (test_prequant_matmul_fp8_int4_input_hopper rng manual_seed
          woq_gen_weights randint randn woq_groupwise_extract_int4
          getSMVersion cu)) /\
  (forall c, In c cases_hopper_fp16_int4_flexible_groups ->
     completed c
       (test_hopper_fp16_int4_flexible_groups rng manual_seed woq_gen_weights
          randint randn woq_groupwise_extract_int4 getSMVersion c)) /\
  (forall c, In c cases_hopper_fp8_int4_flexible_groups ->
     completed c
       (test_hopper_fp8_int4_flexible_groups rng manual_seed woq_gen_weights
          randint randn woq_groupwise_extract_int4 getSMVersion c)).
Proof.
  assert (A1 : forallb admissible cases_matmul_int4_input = true) by reflexivity.
  assert (A2 : forallb admissible cases_prequant_matmul_int4_input = true)
    by reflexivity.
  assert (A3 : forallb (fun cu => admissible (fst cu))
                 cases_prequant_matmul_fp8_int4_input_hopper = true) by reflexivity.
  assert (A4 : forallb admissible cases_hopper_fp16_int4_flexible_groups = true)
    by reflexivity.
  assert (A5 : forallb admissible cases_hopper_fp8_int4_flexible_groups = true)
    by reflexivity.
  rewrite forallb_forall in A1, A2, A3, A4, A5.
  repeat split.
  - intros c Hin. unfold test_matmul_int4_input.
    destruct (getSMVersion <? 80)%nat; [left; reflexivity |].
    apply run_case_completes, A1, Hin.
  - intros c Hin. unfold test_prequant_matmul_int4_input.
    destruct (getSMVersion <? 80)%nat; [left; reflexivity |].
    apply run_case_completes, A2, Hin.
  - intros cu Hin. unfold test_prequant_matmul_fp8_int4_input_hopper.
    destruct (negb (getSMVersion =? 90)%nat); [left; reflexivity |].
    apply run_case_completes, (A3 cu Hin).
  - intros c Hin. unfold test_hopper_fp16_int4_flexible_groups.
    destruct (negb (getSMVersion =? 90)%nat); [left; reflexivity |].
    apply run_case_completes, A4, Hin.
  - intros c Hin. unfold test_hopper_fp8_int4_flexible_groups.
    destruct (negb (getSMVersion =? 90)%nat); [left; reflexivity |].
    apply run_case_completes, A5, Hin.
Qed.

End ExtraRuns.

(** ** Concrete runs of the further properties *)

(** X3 on eight unpacked rows, group size 4 and three scale rows. *)
Lemma zero_of_zeros_is_neutral_run :
  ref_th_weight_of ones_8x1 scale_123 (repeat (repeat 0 1) ((8 + 4) / 4)) 4 true false =
  ref_th_weight_of ones_8x1 scale_123 torch_Tensor 4 false false.
Proof.
  exact (zero_of_zeros_is_neutral 8 1 4 ones_8x1 scale_123 false
           ltac:(lia) eq_refl eq_refl).
Defined.


(** X6 with alpha [1/2] on a [2 x 3] activation. *)
Lemma alpha_and_pre_quant_scale_commute_run :
  ref_activation_of 2 true true sample_act [Q2Qc (1 # 2)] sample_pqs =
    (b <- ref_activation_of 2 false true sample_act [] sample_pqs ;;
     ref_activation_of 2 true false b [Q2Qc (1 # 2)] sample_pqs).
Proof.
  exact (alpha_and_pre_quant_scale_commute 2 3 sample_act sample_pqs
           (Q2Qc (1 # 2)) eq_refl eq_refl).
Defined.

(** X7 at [k = 8], [n = 1], [group_size = 4]. *)
Lemma reference_weight_follows_rows_iff_run :
  (forall (hz u : bool) (q scale zero : tensor) (w : tensor) (r c : nat),
      has_shape 8 1 q = true ->
      has_shape ((8 + 4) / 4) 1 scale = true ->
      (hz = true -> has_shape ((8 + 4) / 4) 1 zero = true) ->
      ref_th_weight_of q scale zero 4 hz u = ret w ->
      (r < 8)%nat -> (c < 1)%nat ->
      entry w r c = dequant_spec q scale zero 4 hz u r c)
  <-> (8 < 4)%nat.
Proof.
  exact (reference_weight_follows_rows_iff 8 1 4 ltac:(lia) ltac:(lia) ltac:(lia)).
Defined.

(** X8 on the sample sources with [m = 1], [n = 2], [k = 8]. *)
Lemma reference_completes_iff_run :
  (exists L, sample_run 1 2 8 float16 false true true 4 true false = ret L)
  <-> (0 < 4)%nat /\ (8 mod 8 = 0)%nat.
Proof.
  exact (proj1 (reference_completes_iff nat sample_seed sample_gen sample_randint
                  sample_randn sample_extract sample_gen_shape
                  sample_randint_shape sample_extract_shape
                  1 2 8 float16 false true true 4 true false
                  ltac:(lia) ltac:(lia))).
Defined.

(** X9 at the first row of [test_matmul_int4_input] on an Ampere GPU. *)
Lemma every_case_runs_the_reference_run :
  completed (mk_case 1 1024 64 float16 false true true 64)
    (test_matmul_int4_input nat sample_seed sample_gen sample_randint
       sample_randn sample_extract 80
       (mk_case 1 1024 64 float16 false true true 64)).
Proof.
  exact (proj1 (every_case_runs_the_reference nat sample_seed sample_gen
                  sample_randint sample_randn sample_extract sample_gen_shape
                  sample_randint_shape sample_extract_shape 80)
           (mk_case 1 1024 64 float16 false true true 64)
           (or_introl eq_refl)).
Defined.

(** ** examples/blip2/summarize.py: engine names and prompt-tuning inputs *)

Module SummarizeInputsFacts.
Import SummarizeInputs.

(** X10: ranks get engine file names of their own: two ranks with the same
    name are the same rank. *)
Theorem engine_names_are_distinct (rank rank' : Z) :
  get_engine_name rank = get_engine_name rank' -> rank = rank'.
Proof.
  unfold get_engine_name, Literals.rank_prefix. cbn [String.append].
  intros H. injection H as H.
  apply string_append_cancel_r in H. apply decimal_of_int_inj, H.
Qed.

(** *** Rows of a row-major matrix *)

Lemma nth_mrow (c : nat) (l : list Z) (i j : nat) (d : Z) :
  (j < c)%nat -> nth j (mrow c l i) d = nth (i * c + j) l d.
Proof.
  intros Hj. unfold mrow. rewrite nth_firstn.
  replace (j <? c)%nat with true by (symmetry; apply Nat.ltb_lt; exact Hj).
  apply nth_skipn.
Qed.

Lemma mrow_length (c r : nat) (l : list Z) (i : nat) :
  length l = (r * c)%nat -> (i < r)%nat -> length (mrow c l i) = c.
Proof.
  intros Hl Hi. unfold mrow. rewrite length_firstn, length_skipn, Hl. nia.
Qed.

Lemma length_flat_map_seq {A : Type} (f : nat -> list A) (c a n : nat) :
  (forall i, (i < n)%nat -> length (f (a + i)%nat) = c) ->
  length (flat_map f (seq a n)) = (n * c)%nat.
Proof.
  revert a. induction n as [| n IH]; intros a H; [reflexivity |].
  cbn [seq flat_map]. rewrite length_app, IH.
  - rewrite <- (Nat.add_0_r a) at 1. rewrite (H 0%nat) by lia. lia.
  - intros i Hi. replace (S a + i)%nat with (a + S i)%nat by lia. apply H. lia.
Qed.

Lemma nth_flat_map_seq {A : Type} (f : nat -> list A) (d : A) (c a n i j : nat) :
  (forall i, (i < n)%nat -> length (f (a + i)%nat) = c) ->
  (i < n)%nat -> (j < c)%nat ->
  nth (i * c + j) (flat_map f (seq a n)) d = nth j (f (a + i)%nat) d.
Proof.
  revert a i. induction n as [| n IH]; intros a i H Hi Hj; [lia |].
  cbn [seq flat_map].
  assert (H0 : length (f a) = c).
  { rewrite <- (Nat.add_0_r a). apply H. lia. }
  destruct i as [| i].
  - rewrite app_nth1 by (rewrite H0; lia). rewrite Nat.add_0_r. reflexivity.
  - rewrite app_nth2 by (rewrite H0; nia).
    replace (S i * c + j - length (f a))%nat with (i * c + j)%nat by (rewrite H0; nia).
    rewrite IH; [| | lia | exact Hj].
    + replace (S a + i)%nat with (a + S i)%nat by lia. reflexivity.
    + intros i' Hi'. replace (S a + i')%nat with (a + S i')%nat by lia. apply H. lia.
Qed.

(** [torch.cat] along dimension 1: the shape and the entries. *)
Lemma cat1_entries (a b : mat) :
  wf_mat a -> wf_mat b -> rows a = rows b ->
  exists m, cat1 a b = inr m /\
    rows m = rows a /\ cols m = (cols a + cols b)%nat /\ wf_mat m /\
    (forall i j, (i < rows a)%nat -> (j < cols a)%nat ->
       mat_at m i j = mat_at a i j) /\
    (forall i j, (i < rows a)%nat -> (j < cols b)%nat ->
       mat_at m i (cols a + j) = mat_at b i j).
Proof.
  intros Wa Wb Hr. unfold cat1. rewrite Hr, Nat.eqb_refl.
  eexists. split; [reflexivity |]. cbn [rows cols mdata].
  set (f := fun i => mrow (cols a) (mdata a) i ++ mrow (cols b) (mdata b) i).
  assert (Hlen : forall i, (i < rows b)%nat ->
            length (f (0 + i)%nat) = (cols a + cols b)%nat).
  { intros i Hi. unfold f. cbn [Nat.add]. rewrite length_app.
    rewrite (mrow_length (cols a) (rows a) _ i Wa) by lia.
    rewrite (mrow_length (cols b) (rows b) _ i Wb) by lia. reflexivity. }
  split; [reflexivity |]. split; [reflexivity |]. split; [| split].
  - unfold wf_mat. cbn [rows cols mdata]. apply length_flat_map_seq, Hlen.
  - intros i j Hi Hj. unfold mat_at. cbn [cols mdata].
    rewrite (nth_flat_map_seq f 0%Z (cols a + cols b) 0 (rows b) i j Hlen) by lia.
    unfold f. cbn [Nat.add].
    rewrite app_nth1 by (rewrite (mrow_length (cols a) (rows a) _ i Wa); lia).
    apply nth_mrow, Hj.
  - intros i j Hi Hj. unfold mat_at. cbn [cols mdata].
    rewrite (nth_flat_map_seq f 0%Z (cols a + cols b) 0 (rows b) i (cols a + j) Hlen)
      by lia.
    unfold f. cbn [Nat.add].
    rewrite app_nth2 by (rewrite (mrow_length (cols a) (rows a) _ i Wa); lia).
    rewrite (mrow_length (cols a) (rows a) _ i Wa) by lia.
    replace (cols a + j - cols a)%nat with j by lia.
    apply nth_mrow, Hj.
Qed.

Lemma arange_length (a : Z) (n : nat) : length (arange a n) = n.
Proof. unfold arange. rewrite length_map, length_seq. reflexivity. Qed.

Lemma nth_arange (a : Z) (n i : nat) :
  (i < n)%nat -> nth i (arange a n) 0%Z = (a + Z.of_nat i)%Z.
Proof.
  intros Hi. unfold arange.
  rewrite (nth_indep _ 0%Z (a + Z.of_nat 0)%Z) by (rewrite length_map, length_seq; exact Hi).
  rewrite (map_nth (fun i0 => (a + Z.of_nat i0)%Z)), seq_nth by exact Hi.
  reflexivity.
Qed.

Lemma to_int32_in_range (z : Z) : in_int32 z = true -> to_int32 z = z.
Proof.
  unfold in_int32, to_int32. rewrite andb_true_iff, Z.leb_le, Z.ltb_lt.
  intros [Hlo Hhi]. rewrite Z.mod_small; lia.
Qed.

Lemma in_int32_of_nat (n : nat) :
  (Z.of_nat n < 2 ^ 31)%Z -> in_int32 (Z.of_nat n) = true.
Proof.
  intros H. unfold in_int32. rewrite andb_true_iff, Z.leb_le, Z.ltb_lt. lia.
Qed.

(** The fields of a split string are one more than its separators. *)
Lemma split_on_length (sep : Ascii.ascii) (s : String.string) :
  length (split_on sep s) = S (count_char sep s).
Proof.
  induction s as [| c s IH]; [reflexivity |].
  cbn [split_on count_char]. destruct (Ascii.eqb c sep).
  - cbn [length]. rewrite IH. reflexivity.
  - destruct (split_on sep s) as [| h t] eqn:E; [discriminate IH |].
    cbn [length] in *. lia.
Qed.

Section SetupFacts.

Variable str_dtype_to_torch : String.string -> res Summarize.torch_dtype.
Variable cast : Summarize.torch_dtype -> Qc -> Qc.
Variable torch_empty : nat -> list Qc.
Variable py_int : String.string -> option Z.

Local Abbreviation setup :=
  (ptuning_setup str_dtype_to_torch cast torch_empty py_int).

Lemma parse_tasks_length (fields : list String.string) (zs : list Z) :
  parse_tasks py_int fields = inr zs -> length zs = length fields.
Proof.
  revert zs. induction fields as [| t rest IH]; intros zs H.
  - injection H as <-. reflexivity.
  - cbn [parse_tasks] in H. destruct (py_int t) as [z |]; [| discriminate H].
    destruct (parse_tasks py_int rest) as [e | zs']; [discriminate H |].
    injection H as <-. cbn [length]. rewrite (IH zs' eq_refl). reflexivity.
Qed.

Lemma setup_flatten_value (t : nd Qc) (b s h : nat) (dtype : String.string)
    (d : Summarize.torch_dtype) (hidden_size nseq : nat)
    (input_ids input_lengths : nd Z) (rip : bool) :
  shape t = [b; s; h] -> wf t ->
  str_dtype_to_torch dtype = inr d ->
  (Z.of_nat s < 2 ^ 31)%Z ->
  (if rip then shape_at input_lengths 0 else shape_at input_ids 0) = inr nseq ->
  setup (Some t) dtype hidden_size None input_ids input_lengths rip =
    inr (mk_ptuning (mk_nd [(b * s)%nat; h] (map (cast d) (data t)))
           (mk_nd [nseq] (repeat 0%Z nseq))
           (IntT (mk_nd [1%nat] [Z.of_nat s]))).
Proof.
  intros Hs Hw Hd Hs31 Hn.
  assert (S0 : shape_at t 0 = inr b) by (unfold shape_at; rewrite Hs; reflexivity).
  assert (S1 : shape_at t 1 = inr s) by (unfold shape_at; rewrite Hs; reflexivity).
  assert (S2 : shape_at t 2 = inr h) by (unfold shape_at; rewrite Hs; reflexivity).
  unfold ptuning_setup. rewrite S0, S1, S2. cbn [ebind].
  unfold tensor_int32. cbn [forallb length].
  rewrite (in_int32_of_nat s Hs31). cbn [andb ebind].
  unfold view.
  replace (prod_shape [(b * s)%nat; h] =? length (data t))%nat with true.
  2:{ symmetry. apply Nat.eqb_eq. rewrite Hw, Hs. unfold prod_shape.
      cbn [fold_right]. lia. }
  cbn [ebind]. rewrite Hd. cbn [ebind fst snd shape data].
  rewrite Hn. reflexivity.
Qed.

Lemma at2_flattened (t : nd Qc) (b s h : nat) (d : Summarize.torch_dtype)
    (i j c : nat) :
  shape t = [b; s; h] -> wf t -> (i < b)%nat -> (j < s)%nat -> (c < h)%nat ->
  at2 0 h (mk_nd [(b * s)%nat; h] (map (cast d) (data t))) (i * s + j) c =
    cast d (at3 0 s h t i j c).
Proof.
  intros Hs Hw Hi Hj Hc. unfold at2, at3. cbn [data].
  rewrite (nth_indep _ 0 (cast d 0)).
  - apply map_nth.
  - rewrite length_map, Hw, Hs. unfold prod_shape. cbn [fold_right].
    assert (Hrow : (i * s + j + 1 <= b * s)%nat) by nia.
    assert (Hmul : ((i * s + j + 1) * h <= b * s * h)%nat)
      by (apply Nat.mul_le_mono_r; exact Hrow).
    lia.
Qed.

(** X11: a prompt table of shape [(b, s, h)] comes back as the [b * s] rows
    of [h] converted elements, row [i * s + j] holding the embedding
    [prompt_table[i, j, :]]; the task vocabulary size is the int32 tensor
    [[s]] and, with no tasks given, every sequence gets task 0. *)
Theorem ptuning_setup_flattens_prompt_table (t : nd Qc) (b s h : nat)
    (dtype : String.string) (d : Summarize.torch_dtype) (hidden_size nseq : nat)
    (input_ids input_lengths : nd Z) (rip : bool) :
  shape t = [b; s; h] -> wf t ->
  str_dtype_to_torch dtype = inr d ->
  (Z.of_nat s < 2 ^ 31)%Z ->
  (if rip then shape_at input_lengths 0 else shape_at input_ids 0) = inr nseq ->
  exists P,
    setup (Some t) dtype hidden_size None input_ids input_lengths rip = inr P /\
    shape (p_prompt_table P) = [(b * s)%nat; h] /\
    wf (p_prompt_table P) /\
    p_task_vocab_size P = IntT (mk_nd [1%nat] [Z.of_nat s]) /\
    p_tasks P = mk_nd [nseq] (repeat 0%Z nseq) /\
    forall i j c, (i < b)%nat -> (j < s)%nat -> (c < h)%nat ->
      at2 0 h (p_prompt_table P) (i * s + j) c = cast d (at3 0 s h t i j c).
Proof.
  intros Hs Hw Hd Hs31 Hn.
  rewrite (setup_flatten_value t b s h dtype d hidden_size nseq input_ids
             input_lengths rip Hs Hw Hd Hs31 Hn).
  eexists. split; [reflexivity |]. cbn [p_prompt_table p_tasks p_task_vocab_size].
  split; [reflexivity |]. split; [| split; [reflexivity | split; [reflexivity |]]].
  - unfold wf. cbn [shape data]. rewrite length_map, Hw, Hs.
    unfold prod_shape. cbn [fold_right]. lia.
  - intros i j c Hi Hj Hc. apply at2_flattened; assumption.
Qed.

(** X12: a prompt table of rank below 3 (with dimensions that fit int32) is
    refused with [IndexError], whatever the other arguments are. *)
Theorem ptuning_setup_rejects_low_rank (t : nd Qc) (dtype : String.string)
    (hidden_size : nat) (tasks : option String.string)
    (input_ids input_lengths : nd Z) (rip : bool) :
  (length (shape t) < 3)%nat ->
  (forall d, In d (shape t) -> (Z.of_nat d < 2 ^ 31)%Z) ->
  setup (Some t) dtype hidden_size tasks input_ids input_lengths rip =
    inl IndexError.
Proof.
  intros Hr Hd. unfold ptuning_setup.
  destruct (shape t) as [| d0 [| d1 [| d2 rest]]] eqn:Es; cbn [length] in Hr; try lia.
  - unfold shape_at at 1. rewrite Es. reflexivity.
  - unfold shape_at at 1. rewrite Es. reflexivity.
  - assert (S0 : shape_at t 0 = inr d0) by (unfold shape_at; rewrite Es; reflexivity).
    assert (S1 : shape_at t 1 = inr d1) by (unfold shape_at; rewrite Es; reflexivity).
    assert (S2 : shape_at t 2 = inl IndexError)
      by (unfold shape_at; rewrite Es; reflexivity).
    rewrite S0, S1, S2. cbn [ebind]. unfold tensor_int32. cbn [forallb].
    rewrite (in_int32_of_nat d1) by (apply Hd; right; left; reflexivity).
    reflexivity.
Qed.

(** X13: whenever [ptuning_setup] returns, its task tensor has one entry
    per sequence; a tasks string is accepted only if it has one field per
    sequence (one comma less than sequences), every field parsed by [int]
    and within int32, and the entries are the parsed fields in order. *)
Theorem ptuning_setup_tasks_match_sequences (prompt_table : option (nd Qc))
    (dtype : String.string) (hidden_size : nat) (tasks : option String.string)
    (input_ids input_lengths : nd Z) (rip : bool) (P : ptuning) :
  setup prompt_table dtype hidden_size tasks input_ids input_lengths rip = inr P ->
  exists nseq,
    (if rip then shape_at input_lengths 0 else shape_at input_ids 0) = inr nseq /\
    shape (p_tasks P) = [nseq] /\
    length (data (p_tasks P)) = nseq /\
    match tasks with
    | Some s =>
        S (count_char comma s) = nseq /\
        parse_tasks py_int (split_on comma s) = inr (data (p_tasks P)) /\
        forallb in_int32 (data (p_tasks P)) = true
    | None => data (p_tasks P) = repeat 0%Z nseq
    end.
Proof.
  unfold ptuning_setup. intros H.
  match type of H with ebind ?c _ = _ => destruct c as [e | pt] end;
    [discriminate H |].
  cbn [ebind] in H.
  destruct (if rip then shape_at input_lengths 0 else shape_at input_ids 0)
    as [e | nseq]; [discriminate H |].
  cbn [ebind] in H. exists nseq. split; [reflexivity |].
  destruct tasks as [s |].
  - destruct (parse_tasks py_int (split_on comma s)) as [e | l] eqn:El;
      [discriminate H |].
    cbn [ebind] in H. unfold tensor_int32 in H.
    destruct (forallb in_int32 l) eqn:Er; [| discriminate H].
    cbn [ebind] in H.
    destruct (length l =? nseq)%nat eqn:En; [| discriminate H].
    cbn [ebind] in H. injection H as <-. cbn [p_tasks shape data].
    apply Nat.eqb_eq in En. pose proof (parse_tasks_length _ _ El) as Ll.
    rewrite split_on_length in Ll.
    split; [congruence |]. split; [exact En |].
    split; [congruence |]. split; [reflexivity | exact Er].
  - cbn [ebind] in H. injection H as <-. cbn [p_tasks shape data].
    split; [reflexivity |]. split; [apply repeat_length | reflexivity].
Qed.

Local Abbreviation inputs :=
  (opt_blip2_inputs str_dtype_to_torch cast torch_empty py_int).

Lemma sum1_length (a : mat) : length (sum1 a) = rows a.
Proof. unfold sum1. rewrite length_map, length_seq. reflexivity. Qed.

Lemma mat_at_to_int32 (r c : nat) (l : list Z) (i j : nat) :
  mat_at (mk_mat r c (map to_int32 l)) i j = to_int32 (nth (i * c + j) l 0%Z).
Proof.
  unfold mat_at. cbn [cols mdata].
  change 0%Z with (to_int32 0) at 1. apply map_nth.
Qed.

(** The value of the input assembly on well-shaped operands. *)
Lemma opt_blip2_inputs_value (v : Z) (dtype : String.string)
    (d : Summarize.torch_dtype) (hidden_size : nat) (rip : bool)
    (inputs_opt : nd Qc) (atts_opt tok_ids tok_mask : mat) (b s h : nat) :
  shape inputs_opt = [b; s; h] -> wf inputs_opt ->
  wf_mat atts_opt -> rows atts_opt = b ->
  wf_mat tok_ids -> rows tok_ids = b ->
  wf_mat tok_mask -> rows tok_mask = b ->
  str_dtype_to_torch dtype = inr d ->
  (Z.of_nat s < 2 ^ 31)%Z ->
  exists am ids,
    cat1 atts_opt tok_mask = inr am /\
    cat1 (mk_mat b s (arange v (b * s))) tok_ids = inr ids /\
    inputs v dtype hidden_size rip inputs_opt atts_opt tok_ids tok_mask =
      inr (mk_mat (rows ids) (cols ids) (map to_int32 (mdata ids)),
           map to_int32 (sum1 am),
           mk_ptuning (mk_nd [(b * s)%nat; h] (map (cast d) (data inputs_opt)))
             (mk_nd [b] (repeat 0%Z b))
             (IntT (mk_nd [1%nat] [Z.of_nat s]))).
Proof.
  intros Hs Hw Wa Ra Wi Ri Wm Rm Hd Hs31.
  destruct (cat1_entries atts_opt tok_mask Wa Wm ltac:(congruence))
    as (am & Eam & Ram & _).
  assert (Wf : wf_mat (mk_mat b s (arange v (b * s))))
    by (unfold wf_mat; cbn [rows cols mdata]; apply arange_length).
  destruct (cat1_entries (mk_mat b s (arange v (b * s))) tok_ids Wf Wi
              ltac:(cbn [rows]; congruence)) as (ids & Eids & Rids & _).
  cbn [rows] in Rids.
  exists am, ids. split; [exact Eam |]. split; [exact Eids |].
  unfold opt_blip2_inputs. rewrite Eam. cbn [ebind].
  assert (S0 : shape_at inputs_opt 0 = inr b) by (unfold shape_at; rewrite Hs; reflexivity).
  assert (S1 : shape_at inputs_opt 1 = inr s) by (unfold shape_at; rewrite Hs; reflexivity).
  rewrite S0, S1. cbn [ebind]. rewrite Eids. cbn [ebind].
  rewrite (setup_flatten_value inputs_opt b s h dtype d hidden_size b _ _ rip
             Hs Hw Hd Hs31).
  - reflexivity.
  - destruct rip; unfold shape_at, nd_of_list, nd_of_mat; cbn [shape nth_error rows].
    + rewrite length_map, sum1_length, Ram, Ra. reflexivity.
    + rewrite Rids. reflexivity.
Qed.

(** X14: the input ids of [opt_blip2] start, in every row, with the [s]
    prompt ids [vocab_size + i * s + j], all outside the vocabulary, and go
    on with the tokenizer's ids; the prompt id at [(i, j)], less
    [vocab_size], is the row of the flattened prompt table that holds the
    image embedding [inputs_opt[i, j, :]]. *)
Theorem image_prompt_ids_index_the_prompt_table (v : Z) (dtype : String.string)
    (d : Summarize.torch_dtype) (hidden_size : nat) (rip : bool)
    (inputs_opt : nd Qc) (atts_opt tok_ids tok_mask : mat) (b s h t : nat) :
  shape inputs_opt = [b; s; h] -> wf inputs_opt ->
  wf_mat atts_opt -> rows atts_opt = b ->
  wf_mat tok_ids -> rows tok_ids = b -> cols tok_ids = t ->
  wf_mat tok_mask -> rows tok_mask = b ->
  str_dtype_to_torch dtype = inr d ->
  (Z.of_nat s < 2 ^ 31)%Z ->
  (0 <= v)%Z -> (v + Z.of_nat (b * s) <= 2 ^ 31)%Z ->
  Forall (fun z => in_int32 z = true) (mdata tok_ids) ->
  exists ids lens P,
    inputs v dtype hidden_size rip inputs_opt atts_opt tok_ids tok_mask =
      inr (ids, lens, P) /\
    rows ids = b /\ cols ids = (s + t)%nat /\ length lens = b /\
    p_task_vocab_size P = IntT (mk_nd [1%nat] [Z.of_nat s]) /\
    p_tasks P = mk_nd [b] (repeat 0%Z b) /\
    (forall i j, (i < b)%nat -> (j < s)%nat ->
       mat_at ids i j = (v + Z.of_nat (i * s + j))%Z /\
       forall c, (c < h)%nat ->
         at2 0 h (p_prompt_table P) (Z.to_nat (mat_at ids i j - v)) c =
           cast d (at3 0 s h inputs_opt i j c)) /\
    (forall i j, (i < b)%nat -> (j < t)%nat ->
       mat_at ids i (s + j) = mat_at tok_ids i j).
Proof.
  intros Hs Hw Wa Ra Wi Ri Ci Wm Rm Hd Hs31 Hv Hv' Htok.
  destruct (opt_blip2_inputs_value v dtype d hidden_size rip inputs_opt atts_opt
              tok_ids tok_mask b s h Hs Hw Wa Ra Wi Ri Wm Rm Hd Hs31)
    as (am & ids & Eam & Eids & E).
  destruct (cat1_entries atts_opt tok_mask Wa Wm ltac:(congruence))
    as (am' & Eam' & Ram & _).
  rewrite Eam in Eam'. injection Eam' as <-.
  assert (Wf : wf_mat (mk_mat b s (arange v (b * s))))
    by (unfold wf_mat; cbn [rows cols mdata]; apply arange_length).
  destruct (cat1_entries (mk_mat b s (arange v (b * s))) tok_ids Wf Wi
              ltac:(cbn [rows]; congruence))
    as (ids' & Eids' & Rids & Cids & Wids & Hleft & Hright).
  rewrite Eids in Eids'. injection Eids' as <-.
  cbn [rows cols] in Rids, Cids, Hleft, Hright.
  rewrite E. eexists. eexists. eexists. split; [reflexivity |].
  cbn [rows cols p_task_vocab_size p_tasks p_prompt_table].
  split; [exact Rids |]. split; [congruence |].
  split; [rewrite length_map, sum1_length, Ram, Ra; reflexivity |].
  split; [reflexivity |]. split; [reflexivity |]. split.
  - intros i j Hi Hj.
    assert (Hidx : (i * s + j < b * s)%nat) by nia.
    assert (Eij : mat_at (mk_mat (rows ids) (cols ids) (map to_int32 (mdata ids))) i j
                  = (v + Z.of_nat (i * s + j))%Z).
    { rewrite mat_at_to_int32.
      change (nth (i * cols ids + j) (mdata ids) 0%Z) with (mat_at ids i j).
      rewrite (Hleft i j Hi Hj). unfold mat_at. cbn [cols mdata].
      rewrite (nth_arange v (b * s) (i * s + j) Hidx).
      apply to_int32_in_range. unfold in_int32.
      rewrite andb_true_iff, Z.leb_le, Z.ltb_lt. lia. }
    split; [exact Eij |].
    intros c Hc. rewrite Eij.
    replace (Z.to_nat (v + Z.of_nat (i * s + j) - v)) with (i * s + j)%nat by lia.
    apply at2_flattened; assumption.
  - intros i j Hi Hj. rewrite mat_at_to_int32.
    change (nth (i * cols ids + (s + j)) (mdata ids) 0%Z) with (mat_at ids i (s + j)).
    rewrite (Hright i j Hi ltac:(lia)).
    apply to_int32_in_range. rewrite Forall_forall in Htok. apply Htok.
    unfold mat_at. apply nth_In. rewrite Wi, Ri, Ci. nia.
Qed.

Lemma mrow_flat_map_seq (f : nat -> list Z) (c n i : nat) :
  (forall i, (i < n)%nat -> length (f (0 + i)%nat) = c) -> (i < n)%nat ->
  mrow c (flat_map f (seq 0 n)) i = f i.
Proof.
  intros Hlen Hi.
  pose proof (length_flat_map_seq f c 0 n Hlen) as Ltot.
  apply (nth_ext _ _ 0%Z 0%Z).
  - rewrite (mrow_length c n _ i Ltot Hi). symmetry. apply (Hlen i Hi).
  - intros j Hj. rewrite (mrow_length c n _ i Ltot Hi) in Hj.
    rewrite nth_mrow by exact Hj.
    apply (nth_flat_map_seq f 0%Z c 0 n i j Hlen Hi Hj).
Qed.

Lemma zsum_app (a b : list Z) :
  fold_right Z.add 0%Z (a ++ b) = (fold_right Z.add 0%Z a + fold_right Z.add 0%Z b)%Z.
Proof.
  induction a as [| x a IH]; [reflexivity |].
  cbn [app fold_right]. rewrite IH. lia.
Qed.

Lemma zsum_ones (c : nat) : fold_right Z.add 0%Z (repeat 1%Z c) = Z.of_nat c.
Proof.
  induction c as [| c IH]; [reflexivity |].
  cbn [repeat fold_right]. rewrite IH. lia.
Qed.

Lemma zsum_mask (l : list Z) :
  Forall (fun z => z = 0%Z \/ z = 1%Z) l ->
  (0 <= fold_right Z.add 0%Z l <= Z.of_nat (length l))%Z.
Proof.
  induction 1 as [| x l Hx _ IH]; [cbn; lia |].
  cbn [fold_right length]. lia.
Qed.

Lemma mrow_ones (c r i : nat) :
  (i < r)%nat -> mrow c (repeat 1%Z (r * c)) i = repeat 1%Z c.
Proof.
  intros Hi.
  assert (L : length (mrow c (repeat 1%Z (r * c)) i) = c)
    by (apply (mrow_length c r); [apply repeat_length | exact Hi]).
  apply (nth_ext _ _ 1%Z 1%Z).
  - rewrite L, repeat_length. reflexivity.
  - intros j Hj. rewrite L in Hj. rewrite nth_mrow by exact Hj.
    rewrite !nth_repeat. reflexivity.
Qed.

Lemma Forall_mrow (P : Z -> Prop) (c r : nat) (l : list Z) (i : nat) :
  length l = (r * c)%nat -> (i < r)%nat -> Forall P l -> Forall P (mrow c l i).
Proof.
  intros Hl Hi HP. rewrite Forall_forall in *. intros x Hin.
  destruct (In_nth _ _ 0%Z Hin) as (j & Hj & <-).
  rewrite (mrow_length c r l i Hl Hi) in Hj.
  rewrite nth_mrow by exact Hj. apply HP, nth_In. rewrite Hl. nia.
Qed.

(** The sum of row [i] of the attention mask of line 225. *)
Lemma attention_row_sum (b s t : nat) (tok_mask : mat) (i : nat) :
  wf_mat tok_mask -> rows tok_mask = b -> cols tok_mask = t -> (i < b)%nat ->
  fold_right Z.add 0%Z
    (mrow (s + t)
       (flat_map (fun i0 => mrow s (repeat 1%Z (b * s)) i0 ++
                            mrow t (mdata tok_mask) i0) (seq 0 b)) i) =
  (Z.of_nat s + fold_right Z.add 0%Z (mrow t (mdata tok_mask) i))%Z.
Proof.
  intros Wm Rm Cm Hi.
  rewrite mrow_flat_map_seq; [| | exact Hi].
  - rewrite zsum_app, (mrow_ones s b i Hi), zsum_ones. reflexivity.
  - intros i0 Hi0. cbn [Nat.add]. rewrite length_app.
    rewrite (mrow_length s b _ i0) by (try apply repeat_length; exact Hi0).
    rewrite (mrow_length t b _ i0) by (try (rewrite Wm, Rm, Cm; reflexivity); exact Hi0).
    reflexivity.
Qed.

(** X15: the input length of sequence [i] is the number [s] of image
    positions plus the number of tokens its attention mask keeps, so it lies
    between [s] and [s + t]. *)
Theorem input_lengths_count_image_and_text (v : Z) (dtype : String.string)
    (d : Summarize.torch_dtype) (hidden_size : nat) (rip : bool)
    (inputs_opt : nd Qc) (tok_ids tok_mask : mat) (b s h t : nat) :
  shape inputs_opt = [b; s; h] -> wf inputs_opt ->
  wf_mat tok_ids -> rows tok_ids = b ->
  wf_mat tok_mask -> rows tok_mask = b -> cols tok_mask = t ->
  Forall (fun z => z = 0%Z \/ z = 1%Z) (mdata tok_mask) ->
  str_dtype_to_torch dtype = inr d ->
  (Z.of_nat (s + t) < 2 ^ 31)%Z ->
  exists ids lens P,
    inputs v dtype hidden_size rip inputs_opt (mk_mat b s (repeat 1%Z (b * s)))
      tok_ids tok_mask = inr (ids, lens, P) /\
    length lens = b /\
    forall i, (i < b)%nat ->
      nth i lens 0%Z =
        (Z.of_nat s + fold_right Z.add 0%Z (mrow t (mdata tok_mask) i))%Z /\
      (Z.of_nat s <= nth i lens 0%Z <= Z.of_nat (s + t))%Z.
Proof.
  intros Hs Hw Wi Ri Wm Rm Cm Hmask Hd H31.
  assert (Wa : wf_mat (mk_mat b s (repeat 1%Z (b * s))))
    by (unfold wf_mat; cbn [rows cols mdata]; apply repeat_length).
  destruct (opt_blip2_inputs_value v dtype d hidden_size rip inputs_opt
              (mk_mat b s (repeat 1%Z (b * s)))
              tok_ids tok_mask b s h Hs Hw Wa eq_refl Wi Ri Wm Rm Hd ltac:(lia))
    as (am & ids & Eam & _ & E).
  rewrite E. eexists. eexists. eexists. split; [reflexivity |].
  unfold cat1 in Eam. cbn [rows cols mdata] in Eam.
  rewrite Rm, Nat.eqb_refl, Cm in Eam. injection Eam as <-.
  split; [rewrite length_map, sum1_length; reflexivity |].
  intros i Hi.
  assert (Hrow : Forall (fun z => z = 0%Z \/ z = 1%Z) (mrow t (mdata tok_mask) i)).
  { apply (Forall_mrow _ t b); [rewrite Wm, Rm, Cm; reflexivity | exact Hi | exact Hmask]. }
  pose proof (zsum_mask _ Hrow) as Hb.
  rewrite (mrow_length t b (mdata tok_mask) i) in Hb
    by (try (rewrite Wm, Rm, Cm; reflexivity); exact Hi).
  match goal with
  | |- ?x = _ /\ _ =>
      assert (En : x = (Z.of_nat s +
                        fold_right Z.add 0%Z (mrow t (mdata tok_mask) i))%Z)
  end.
  { change 0%Z with (to_int32 0) at 1. rewrite map_nth.
    unfold sum1. cbn [rows cols mdata].
    set (g := fun i0 : nat =>
                fold_right Z.add 0%Z
                  (mrow (s + t)
                     (flat_map (fun i1 => mrow s (repeat 1%Z (b * s)) i1 ++
                                          mrow t (mdata tok_mask) i1) (seq 0 b)) i0)).
    rewrite (nth_indep _ 0%Z (g 0%nat)) by (rewrite length_map, length_seq; exact Hi).
    rewrite (map_nth g), seq_nth by exact Hi. cbn [Nat.add]. unfold g.
    rewrite (attention_row_sum b s t tok_mask i Wm Rm Cm Hi).
    apply to_int32_in_range.
    unfold in_int32. rewrite andb_true_iff, Z.leb_le, Z.ltb_lt. lia. }
  rewrite En. split; [reflexivity | lia].
Qed.

End SetupFacts.

(** *** Concrete runs *)

(** X10 at rank 3. *)
Lemma engine_names_are_distinct_run :
  get_engine_name 3 = Literals.rank3_engine /\ (3 = 3)%Z.
Proof.
  split; [reflexivity |].
  exact (engine_names_are_distinct 3 3 eq_refl).
Defined.

(** X11 on an embedding tensor of shape [(1, 2, 2)]. *)
Lemma ptuning_setup_flattens_prompt_table_run :
  exists P,
    sample_setup (Some sample_embeds) Literals.float16_name 2 None
      sample_input_ids sample_input_lengths false = inr P /\
    shape (p_prompt_table P) = [2; 2]%nat.
Proof.
  destruct (ptuning_setup_flattens_prompt_table sample_str_dtype sample_cast
              sample_empty sample_py_int sample_embeds 1 2 2
              Literals.float16_name Summarize.torch_float16 2 2
              sample_input_ids sample_input_lengths false
              eq_refl eq_refl eq_refl eq_refl eq_refl)
    as (P & E & S & _).
  exists P. split; [exact E | exact S].
Defined.

(** X12 on a matrix, of rank 2. *)
Lemma ptuning_setup_rejects_low_rank_run :
  sample_setup (Some sample_matrix) Literals.float16_name 2 None
    sample_input_ids sample_input_lengths false = inl IndexError.
Proof.
  apply (ptuning_setup_rejects_low_rank sample_str_dtype sample_cast
           sample_empty sample_py_int sample_matrix Literals.float16_name 2 None
           sample_input_ids sample_input_lengths false).
  - cbn. lia.
  - intros d [<- | [<- | []]]; reflexivity.
Defined.

(** X13 on the tasks string ["0,1"] and two sequences. *)
Lemma ptuning_setup_tasks_match_sequences_run :
  exists nseq,
    shape_at sample_input_ids 0 = inr nseq /\
    S (count_char comma Literals.tasks_0_1) = nseq.
Proof.
  assert (H : { P | sample_setup None Literals.float16_name 4
                      (Some Literals.tasks_0_1) sample_input_ids
                      sample_input_lengths false = inr P })
    by (eexists; vm_compute; reflexivity).
  destruct H as [P H].
  destruct (ptuning_setup_tasks_match_sequences sample_str_dtype sample_cast
              sample_empty sample_py_int None Literals.float16_name 4
              (Some Literals.tasks_0_1) sample_input_ids sample_input_lengths
              false P H) as (nseq & E & _ & _ & Hc & _).
  exists nseq. split; [exact E | exact Hc].
Defined.

(** X14 with a vocabulary of 10 tokens, one image of two positions and two
    text tokens. *)
Lemma image_prompt_ids_index_the_prompt_table_run :
  exists ids lens P,
    sample_inputs 10 Literals.float16_name 2 false sample_embeds sample_atts
      sample_tok_ids sample_tok_mask = inr (ids, lens, P) /\
    mat_at ids 0 1 = 11%Z /\ mat_at ids 0 (2 + 0) = 5%Z.
Proof.
  destruct (image_prompt_ids_index_the_prompt_table sample_str_dtype sample_cast
              sample_empty sample_py_int 10 Literals.float16_name
              Summarize.torch_float16 2 false sample_embeds sample_atts
              sample_tok_ids sample_tok_mask 1 2 2 2
              eq_refl eq_refl eq_refl eq_refl eq_refl eq_refl eq_refl eq_refl
              eq_refl eq_refl eq_refl ltac:(lia) ltac:(cbn; lia)
              ltac:(repeat constructor))
    as (ids & lens & P & E & _ & _ & _ & _ & _ & Hl & Hr).
  exists ids, lens, P. split; [exact E |]. split.
  - exact (proj1 (Hl 0%nat 1%nat ltac:(lia) ltac:(lia))).
  - exact (Hr 0%nat 0%nat ltac:(lia) ltac:(lia)).
Defined.

(** X15 on the same operands. *)
Lemma input_lengths_count_image_and_text_run :
  exists ids lens P,
    sample_inputs 10 Literals.float16_name 2 false sample_embeds
      (mk_mat 1 2 (repeat 1%Z (1 * 2))) sample_tok_ids sample_tok_mask =
      inr (ids, lens, P) /\
    length lens = 1%nat.
Proof.
  destruct (input_lengths_count_image_and_text sample_str_dtype sample_cast
              sample_empty sample_py_int 10 Literals.float16_name
              Summarize.torch_float16 2 false sample_embeds
              sample_tok_ids sample_tok_mask 1 2 2 2
              eq_refl eq_refl eq_refl eq_refl eq_refl eq_refl eq_refl
              (Forall_cons _ (or_intror eq_refl)
                 (Forall_cons _ (or_introl eq_refl) (Forall_nil _)))
              eq_refl eq_refl)
    as (ids & lens & P & E & L & _).
  exists ids, lens, P. split; [exact E | exact L].
Defined.

End SummarizeInputsFacts.
(** ** Theorems: summarize.py *)

(** C10: [trt_dtype_to_torch] maps [trt.float16], [trt.float32] and
    [trt.int32] to the torch dtype of the same name, and raises [TypeError]
    on every other argument; no other argument yields a value. *)
Theorem trt_dtype_to_torch_total :
  Summarize.trt_dtype_to_torch (Summarize.PyTrt Summarize.trt_float16)
    = ret Summarize.torch_float16 /\
  Summarize.trt_dtype_to_torch (Summarize.PyTrt Summarize.trt_float32)
    = ret Summarize.torch_float32 /\
  Summarize.trt_dtype_to_torch (Summarize.PyTrt Summarize.trt_int32)
    = ret Summarize.torch_int32 /\
  (forall v : Summarize.pyvalue,
      v <> Summarize.PyTrt Summarize.trt_float16 ->
      v <> Summarize.PyTrt Summarize.trt_float32 ->
      v <> Summarize.PyTrt Summarize.trt_int32 ->
      Summarize.trt_dtype_to_torch v = raise TypeError) /\
  (forall (v : Summarize.pyvalue) (t : Summarize.torch_dtype),
      Summarize.trt_dtype_to_torch v = ret t ->
      v = Summarize.PyTrt Summarize.trt_float16 \/
      v = Summarize.PyTrt Summarize.trt_float32 \/
      v = Summarize.PyTrt Summarize.trt_int32).
Proof.
  repeat split; try reflexivity.
  - intros v H16 H32 Hi.
    destruct v as [d | | | |]; try reflexivity.
    destruct d; try reflexivity; exfalso; auto.
  - intros v t H.
    destruct v as [d | | | |]; try discriminate H.
    destruct d; try discriminate H; auto.
Qed.
